(** * Nook: restoring files from editor local history (restore.py)

    A shallow embedding of [src/Nook/restore.py] and the properties of its
    two core algorithms, temporal selection and destination placement,
    together with the record loader and the restore loop of [main].

    Conventions of the embedding:
    - a resolved absolute POSIX path ([pathlib.Path(...).resolve()]) is the
      list of its segments below the root, so [/a/b/c.py] is
      [["a"; "b"; "c.py"]] and the root [/] is [[]]; Python's [parts] puts
      the anchor ["/"] in front;
    - a raised Python exception is the [Raise] case of [result];
    - the destination index (a [defaultdict(list)]) is a [gmap];
    - the file system is a tree of named nodes with ordered directory
      listings, which fixes the order in which [os.walk] reports files;
      it has no permissions, quotas or symbolic links, so a file-system
      call fails here only for the shape of the tree (a file where a
      directory is needed, a directory where a file is);
    - the content of a file is its text as decoded from UTF-8 with
      [errors="replace"]; reading applies universal newlines;
    - a warning of the restore loop is a value of [warning] that carries
      what its line is formatted from, the exception text included. *)

From Stdlib Require Import ZArith List Ascii String Bool Lia.
From stdpp Require Import base option list strings gmap sorting.
Import ListNotations.

Local Open Scope string_scope.
Local Open Scope list_scope.
Local Open Scope nat_scope.

(** ** Exceptions *)

Inductive exn : Type :=
  | TypeError
  | OSError
  | KeyError
  | UnicodeDecodeError
  | RecursionError.

Inductive result (A : Type) : Type :=
  | OK (a : A)
  | Raise (e : exn).
Arguments OK {A} a.
Arguments Raise {A} e.

Definition bind {A B : Type} (m : result A) (k : A -> result B) : result B :=
  match m with
  | OK a => k a
  | Raise e => Raise e
  end.

Notation "'perform' x <- m ;; k" := (bind m (fun x => k))
  (at level 10, x name, m at level 99, k at level 200).

(** ** Paths (pathlib.PurePosixPath on resolved absolute paths) *)

Module Path.

Definition path : Type := list string.

(** [p.name]: the last segment, the empty string for the root. *)
Definition name (p : path) : string := List.last p "".

(** [p.parts]: the anchor followed by the segments. *)
Definition parts (p : path) : list string := "/" :: p.

(** [p.parent]: the root is its own parent. *)
Definition parent (p : path) : path := removelast p.

Fixpoint parents_from (n : nat) (p : path) : list path :=
  match n with
  | O => []
  | S n' => parent p :: parents_from n' (parent p)
  end.

(** [list(p.parents)]: nearest ancestor first, the root last; empty for
    the root itself. *)
Definition parents (p : path) : list path := parents_from (length p) p.

(** [p.relative_to(base)]: [None] stands for the [ValueError] raised when
    [base] is not a (non-strict) ancestor of [p]. *)
Fixpoint relative_to (p base : path) {struct base} : option (list string) :=
  match base with
  | [] => Some p
  | b :: base' =>
      match p with
      | [] => None
      | s :: p' => if String.eqb s b then relative_to p' base' else None
      end
  end.

(** [pathlib.Path(s)] for one segment string: the empty string gives the
    empty relative path ['.']. *)
Definition of_str (s : string) : list string :=
  if String.eqb s "" then [] else [s].

(** [p / rel] for a relative [rel]; joining the empty relative path
    returns [p] itself. *)
Definition join (p : path) (rel : list string) : path := p ++ rel.

(** [str(rel)] of a relative path: the empty one prints as ['.']. *)
Definition rel_str (rel : list string) : string :=
  match rel with
  | [] => "."
  | s :: rest => fold_left (fun acc x => acc +:+ "/" +:+ x) rest s
  end.

(** [str(p)] of an absolute path. *)
Definition abs_str (p : path) : string :=
  match p with
  | [] => "/"
  | _ => fold_left (fun acc x => acc +:+ "/" +:+ x) p ""
  end.

End Path.
Import Path.

(** ** Python list helpers *)

(** [x in l] for a list of strings. *)
Definition str_in (x : string) (l : list string) : bool :=
  existsb (String.eqb x) l.

(** [l.index(x)]: position of the first occurrence ([None]: ValueError). *)
Fixpoint str_index (x : string) (l : list string) : option nat :=
  match l with
  | [] => None
  | y :: l' => if String.eqb y x then Some O else option_map S (str_index x l')
  end.

(** [l[-i]] for [1 <= i <= len(l)]. *)
Definition neg_index (l : list string) (i : nat) : option string :=
  if (1 <=? i) && (i <=? length l) then l !! (length l - i) else None.

(** ** common_suffix_len *)

(** The [while] loop of [common_suffix_len]; [fuel] bounds the number of
    iterations and [i] is the loop variable. *)
Fixpoint common_suffix_loop (fuel i limit : nat) (a_parts b_parts : list string) : nat :=
  match fuel with
  | O => i
  | S fuel' =>
      if (i <=? limit) &&
         match neg_index a_parts i, neg_index b_parts i with
         | Some x, Some y => String.eqb x y
         | _, _ => false
         end
      then common_suffix_loop fuel' (i + 1) limit a_parts b_parts
      else i
  end.

Definition common_suffix_len (a_parts b_parts : list string) : nat :=
  let i := 1 in
  let limit := Nat.min (length a_parts) (length b_parts) in
  common_suffix_loop (S limit) i limit a_parts b_parts - 1.

(** ** The file system *)

#[warnings="-register-all"]
Inductive node : Type :=
  | File (content : string)
  | Dir (children : list (string * node)).

Fixpoint lookup_child (nm : string) (ch : list (string * node)) : option node :=
  match ch with
  | [] => None
  | (k, c) :: ch' => if String.eqb k nm then Some c else lookup_child nm ch'
  end.

(** The node at an absolute path, if any. *)
Fixpoint node_at (fs : node) (p : path) : option node :=
  match p with
  | [] => Some fs
  | s :: p' =>
      match fs with
      | File _ => None
      | Dir ch =>
          match lookup_child s ch with
          | Some c => node_at c p'
          | None => None
          end
      end
  end.

Definition file_names (ch : list (string * node)) : list string :=
  flat_map (fun e => match snd e with File _ => [fst e] | Dir _ => [] end) ch.

(** [os.walk(top)], top-down: one [(root, files)] pair per directory, the
    directory itself first and then its subdirectories in listing order.
    (The list of subdirectory names that [os.walk] also yields is unused by
    the caller.) A node that is not a directory yields nothing. *)
Fixpoint os_walk (top : path) (n : node) : list (path * list string) :=
  match n with
  | File _ => []
  | Dir ch =>
      (top, file_names ch) ::
      (fix sub (l : list (string * node)) : list (path * list string) :=
         match l with
         | [] => []
         | (nm, c) :: l' => os_walk (top ++ [nm]) c ++ sub l'
         end) ch
  end.

(** [os.walk] started at an absolute path of the file system; a missing
    top directory yields nothing (errors of [scandir] are ignored). *)
Definition os_walk_at (fs : node) (top : path) : list (path * list string) :=
  match node_at fs top with
  | Some n => os_walk top n
  | None => []
  end.

(** ** DestPlacer *)

Record DestPlacer : Type := {
  restore_from : path;
  restore_from_name : string;
  restore_to : path;
  _index : option (gmap string (list path))
}.

(** [DestPlacer.__init__]; the roots are already resolved. *)
Definition DestPlacer_init (restore_from restore_to : path) : DestPlacer :=
  {| restore_from := restore_from;
     restore_from_name := name restore_from;
     restore_to := restore_to;
     _index := None |}.

(** [idx[fn].append(p)] on a [defaultdict(list)]. *)
Definition idx_append (fn : string) (p : path)
    (idx : gmap string (list path)) : gmap string (list path) :=
  <[fn := default [] (idx !! fn) ++ [p]]> idx.

Definition index_of_walk (w : list (path * list string)) : gmap string (list path) :=
  foldl (fun idx rf =>
           foldl (fun idx fn => idx_append fn (fst rf ++ [fn]) idx) idx (snd rf))
        ∅ w.

Definition _build_index (fs : node) (self : DestPlacer) : DestPlacer :=
  {| restore_from := restore_from self;
     restore_from_name := restore_from_name self;
     restore_to := restore_to self;
     _index := Some (index_of_walk (os_walk_at fs (restore_to self))) |}.

Definition _index_candidates (fs : node) (self : DestPlacer) (filename : string)
    : list path * DestPlacer :=
  let self := match _index self with
              | None => _build_index fs self
              | Some _ => self
              end in
  (match _index self with
   | Some idx => default [] (idx !! filename)
   | None => []
   end, self).

(** [[p.name for p in list(x.parents)[:-1]] + [x.name]], the expression
    behind both [src_parts] and [cand_parts]. *)
Definition name_parts (x : path) : list string :=
  map name (removelast (parents x)) ++ [name x].

(** Python's lexicographic [>] on pairs of integers. *)
Definition score_gt (s t : Z * Z) : bool :=
  (fst t <? fst s)%Z || ((fst s =? fst t)%Z && (snd t <? snd s)%Z).

Definition score (src_parts : list string) (cand : path) : Z * Z :=
  let cand_parts := name_parts cand in
  let suffix_len := common_suffix_len src_parts cand_parts in
  (Z.of_nat suffix_len, (- Z.of_nat (length cand_parts))%Z).

(** One iteration of [for cand in candidates] on the state
    [(best, best_score)]. *)
Definition best_step (src_parts : list string) (st : option path * (Z * Z))
    (cand : path) : option path * (Z * Z) :=
  let sc := score src_parts cand in
  if score_gt sc (snd st) then (Some cand, sc) else st.

Definition best_loop (src_parts : list string) (candidates : list path)
    : option path * (Z * Z) :=
  foldl (best_step src_parts) (None, ((-1)%Z, (-1)%Z)) candidates.

(** Tier 2: [None] means falling through to tier 3. *)
Definition tier2 (src_path : path) (candidates : list path) : option path :=
  match candidates with
  | [] => None
  | _ =>
      let src_parts := name_parts src_path in
      let '(best, best_score) := best_loop src_parts candidates in
      match best with
      | Some b => if (0 <? fst best_score)%Z then Some b else None
      | None => None
      end
  end.

(** Tiers 3 and 4. *)
Definition tier34 (self : DestPlacer) (src_path : path) : path :=
  let parts := Path.parts src_path in
  if str_in (restore_from_name self) parts then
    match str_index (restore_from_name self) parts with
    | Some idx =>
        let rel := if idx + 1 <? length parts
                   then skipn (idx + 1) parts
                   else of_str (name src_path) in
        join (restore_to self) rel
    | None => join (restore_to self) (of_str (name src_path))
    end
  else join (restore_to self) (of_str (name src_path)).

Definition choose_dest (fs : node) (self : DestPlacer) (src_path : path)
    : path * DestPlacer :=
  match relative_to src_path (restore_from self) with
  | Some rel => (join (restore_to self) rel, self)
  | None =>
      let '(candidates, self) := _index_candidates fs self (name src_path) in
      match tier2 src_path candidates with
      | Some best => (best, self)
      | None => (tier34 self src_path, self)
      end
  end.

(** ** File-system mutation *)

(** Replace the child called [nm], or add it at the end of the listing. *)
Fixpoint update_child (nm : string) (c : node) (ch : list (string * node))
    : list (string * node) :=
  match ch with
  | [] => [(nm, c)]
  | (k, x) :: ch' =>
      if String.eqb k nm then (k, c) :: ch' else (k, x) :: update_child nm c ch'
  end.

(** [p.mkdir(parents=True, exist_ok=True)]: missing directories along [p]
    are created; a regular file on the way (or at [p]) raises. *)
Fixpoint mkdir_p (p : path) (fs : node) : result node :=
  match fs with
  | File _ => Raise OSError
  | Dir ch =>
      match p with
      | [] => OK fs
      | s :: p' =>
          perform c <- mkdir_p p' (default (Dir []) (lookup_child s ch));;
          OK (Dir (update_child s c ch))
      end
  end.

(** [p.write_text(text)]: creates or overwrites the file; raises when [p]
    is a directory or its parent is not an existing directory. The real
    call can fail for other reasons (permissions, a full disk); [main]
    treats every exception of the call alike. *)
Fixpoint write_text (p : path) (text : string) (fs : node) : result node :=
  match p with
  | [] =>
      match fs with
      | File _ => OK (File text)
      | Dir _ => Raise OSError
      end
  | s :: p' =>
      match fs with
      | File _ => Raise OSError
      | Dir ch =>
          match lookup_child s ch with
          | Some c =>
              perform c' <- write_text p' text c;;
              OK (Dir (update_child s c' ch))
          | None =>
              match p' with
              | [] => OK (Dir (update_child s (File text) ch))
              | _ :: _ => Raise OSError
              end
          end
      end
  end.

(** ** JSON values and the record loader *)

#[warnings="-register-all"]
Inductive json : Type :=
  | JNull
  | JBool (b : bool)
  | JNum (z : Z)
  | JStr (s : string)
  | JArr (items : list json)
  | JObj (members : list (string * json)).

(** Python truthiness of a decoded JSON value ([None] is [JNull]). *)
Definition truthy (j : json) : bool :=
  match j with
  | JNull => false
  | JBool b => b
  | JNum z => negb (z =? 0)%Z
  | JStr s => negb (String.eqb s "")
  | JArr l => match l with [] => false | _ => true end
  | JObj m => match m with [] => false | _ => true end
  end.

Fixpoint substring_of (k s : string) : bool :=
  String.prefix k s ||
  match s with
  | EmptyString => false
  | String _ s' => substring_of k s'
  end.

Fixpoint obj_get (k : string) (m : list (string * json)) : option json :=
  match m with
  | [] => None
  | (k', v) :: m' => if String.eqb k' k then Some v else obj_get k m'
  end.

(** [k in data]: key membership for a dict, element membership for a list,
    substring test for a string, TypeError for a number or a boolean. *)
Definition py_contains (k : string) (data : json) : result bool :=
  match data with
  | JObj m => OK (match obj_get k m with Some _ => true | None => false end)
  | JArr l => OK (existsb (fun x => match x with
                                    | JStr s => String.eqb s k
                                    | _ => false
                                    end) l)
  | JStr s => OK (substring_of k s)
  | JNull | JBool _ | JNum _ => Raise TypeError
  end.

(** [data[k]] for a string [k]. *)
Definition py_getitem (data : json) (k : string) : result json :=
  match data with
  | JObj m => match obj_get k m with
              | Some v => OK v
              | None => Raise KeyError
              end
  | _ => Raise TypeError
  end.

(** What opening and decoding one [entries.json] does: the two
    exceptions that [load_json] catches, any other exception of
    [path.open] or [json.load] (UnicodeDecodeError for bytes that are not
    UTF-8, an OSError such as IsADirectoryError or PermissionError,
    RecursionError for very deep nesting), or the decoded value. *)
Inductive file_read : Type :=
  | FileNotFoundError
  | JSONDecodeError (msg : string)
  | Escapes (e : exn)
  | Parsed (j : json).

(** [load_json]: the decoded value (or [None]) and the lines printed to
    stderr; an exception other than the two caught ones propagates. *)
Definition load_json (p : path) (f : file_read) : result (json * list string) :=
  match f with
  | Parsed j => OK (j, [])
  | FileNotFoundError => OK (JNull, [])
  | JSONDecodeError e =>
      OK (JNull, ["[warn] could not parse JSON: " +:+ abs_str p +:+ " (" +:+ e +:+ ")"])
  | Escapes e => Raise e
  end.

Record loader_state : Type := {
  file_histories : list (path * json);
  loader_stderr : list string
}.

(** One iteration of [for fh in history_root.glob("**/entries.json")]. *)
Definition load_step (st : loader_state) (rec : path * file_read) : result loader_state :=
  let fh := fst rec in
  perform loaded <- load_json fh (snd rec);;
  let data := fst loaded in
  let st := {| file_histories := file_histories st;
               loader_stderr := loader_stderr st ++ snd loaded |} in
  perform skip <-
    (if negb (truthy data) then OK true else
     perform has_entries <- py_contains "entries" data;;
     if negb has_entries then OK true else
     perform has_resource <- py_contains "resource" data;;
     OK (negb has_resource));;
  if skip then OK st else
  perform es <- py_getitem data "entries";;
  if negb (truthy es) then OK st else
  OK {| file_histories := file_histories st ++ [(parent fh, data)];
        loader_stderr := loader_stderr st |}.

Fixpoint load_loop (recs : list (path * file_read)) (st : loader_state)
    : result loader_state :=
  match recs with
  | [] => OK st
  | r :: recs' => perform st' <- load_step st r;; load_loop recs' st'
  end.

Definition load_all (recs : list (path * file_read)) : result loader_state :=
  load_loop recs {| file_histories := []; loader_stderr := [] |}.

(** ** Temporal selection *)

(** The ["timestamp"] member of an entry object: missing, [null], or an
    integer number of milliseconds. *)
Inductive ts_field : Type :=
  | TsAbsent
  | TsNull
  | TsInt (ms : Z).

(** An entry object of a history record, as the editor writes it: its
    ["id"] member, when present, is a string ([None] when it is missing
    or [null]). *)
Record entry : Type := {
  timestamp : ts_field;
  id : option string
}.

(** [e.get("timestamp", 0)]; [None] is Python's [None]. *)
Definition sort_key (e : entry) : option Z :=
  match timestamp e with
  | TsAbsent => Some 0%Z
  | TsNull => None
  | TsInt z => Some z
  end.

(** [e.get("timestamp", None)]. *)
Definition ts_get (e : entry) : option Z :=
  match timestamp e with
  | TsAbsent => None
  | TsNull => None
  | TsInt z => Some z
  end.

(** [x < y] on sort keys: comparing with [None] raises TypeError. *)
Definition key_lt (x y : option Z) : result bool :=
  match x, y with
  | Some a, Some b => OK (a <? b)%Z
  | _, _ => Raise TypeError
  end.

(** [sorted(entries, key=...)] as a stable insertion sort that only uses
    [<] on keys, as Python's sort does. A stable sort has one possible
    result, and every element of a list of two or more takes part in a
    comparison, so result and TypeError agree with the built-in sort. *)
Fixpoint insert_sorted (e : entry) (l : list entry) : result (list entry) :=
  match l with
  | [] => OK [e]
  | y :: l' =>
      perform lt <- key_lt (sort_key y) (sort_key e);;
      if lt then
        perform r <- insert_sorted e l';;
        OK (y :: r)
      else OK (e :: y :: l')
  end.

Fixpoint sorted (entries : list entry) : result (list entry) :=
  match entries with
  | [] => OK []
  | e :: rest => perform s <- sorted rest;; insert_sorted e s
  end.

(** The window predicate of the selection loop. *)
Definition in_window (after_ms before_ms : option Z) (ts : Z) : bool :=
  match after_ms with None => true | Some a => (a <=? ts)%Z end &&
  match before_ms with None => true | Some b => (ts <? b)%Z end.

(** [for e in reversed(entries)] with its [continue] and [break]; the
    argument is the reversed list. *)
Fixpoint pick (after_ms before_ms : option Z) (es : list entry) : option entry :=
  match es with
  | [] => None
  | e :: es' =>
      match ts_get e with
      | None => pick after_ms before_ms es'
      | Some ts =>
          if in_window after_ms before_ms ts then Some e
          else pick after_ms before_ms es'
      end
  end.

(** The selection of [main]: sort ascending, scan from the newest. *)
Definition select (entries : list entry) (after_ms before_ms : option Z)
    : result (option entry) :=
  perform s <- sorted entries;;
  OK (pick after_ms before_ms (reverse s)).

(** ** The restore loop of [main] *)

(** One record of the history store as the loop sees it: the folder of
    its [entries.json], the resolved path of its [resource], and its
    entries. *)
Record tracked_file : Type := {
  file_history_folder : path;
  resource_path : path;
  history_entries : list entry
}.

(** The lines that the restore part of [main] prints to stderr, each
    with the values its text is formatted from:
    - [NoEntriesFound]:
      ["[warn] no entries.json files found under history root."];
    - [MissingBlob src last_id]:
      ["[warn] missing content blob for {src} ({last_id})"];
    - [CouldNotRead code_path e]: ["[warn] could not read {code_path}: {e}"];
    - [CouldNotWrite dest e]: ["[warn] could not write {dest}: {e}"]. *)
Inductive warning : Type :=
  | NoEntriesFound
  | MissingBlob (src_path : path) (last_id : string)
  | CouldNotRead (code_path : path) (e : exn)
  | CouldNotWrite (dest_path : path) (e : exn).

Record run_state : Type := {
  fs_now : node;
  placer : DestPlacer;
  stdout : list (string * path * path);
  stderr : list warning;
  restored_count : nat
}.

Definition warn (st : run_state) (line : warning) : run_state :=
  {| fs_now := fs_now st; placer := placer st; stdout := stdout st;
     stderr := stderr st ++ [line]; restored_count := restored_count st |}.

(** The segments of a path string: split at ["/"], empty and ["."]
    segments dropped, as [pathlib] parses it. *)
Fixpoint split_slash (s cur : string) : list string :=
  match s with
  | EmptyString => [cur]
  | String c s' =>
      if Ascii.eqb c "/"%char then cur :: split_slash s' ""
      else split_slash s' (cur +:+ String c "")
  end.

Definition segments_of (s : string) : list string :=
  List.filter (fun x => negb (String.eqb x "") && negb (String.eqb x "."))
              (split_slash s "").

(** [p / s] for a string [s]: a string that starts with ["/"] replaces
    [p]. Segments [".."] are kept as they are, as [pathlib] keeps them. *)
Definition div_str (p : path) (s : string) : path :=
  match s with
  | String c _ => if Ascii.eqb c "/"%char then segments_of s else p ++ segments_of s
  | EmptyString => p
  end.

(** Universal newlines, as text-mode reading applies them: ["\r\n"] and
    a lone ["\r"] become ["\n"]. *)
Fixpoint universal_newlines (s : string) : string :=
  match s with
  | EmptyString => EmptyString
  | String c s' =>
      if Ascii.eqb c "013"%char then
        match s' with
        | String c' s'' =>
            if Ascii.eqb c' "010"%char
            then String "010"%char (universal_newlines s'')
            else String "010"%char (universal_newlines s')
        | EmptyString => String "010"%char EmptyString
        end
      else String c (universal_newlines s')
  end.

(** The admission test: under the source root, or else the source root's
    folder name among the ancestors' names or equal to the file name. *)
Definition admitted (restore_from src_path : path) : bool :=
  let in_tree :=
    existsb (fun q => bool_decide (q = restore_from)) (parents src_path)
    || bool_decide (src_path = restore_from) in
  if negb in_tree then
    let parents_names := map name (parents src_path) in
    negb (negb (str_in (name restore_from) parents_names)
          && negb (String.eqb (name src_path) (name restore_from)))
  else true.

(** [p.exists()]. *)
Definition path_exists (fs : node) (p : path) : bool :=
  match node_at fs p with Some _ => true | None => false end.

(** [p.read_text(encoding="utf-8", errors="replace")]: [None] stands for
    the exception that [main] catches (the path is a directory). The
    content of a [File] is its text as decoded with [errors="replace"],
    which never fails; reading translates the newlines. *)
Definition read_text (fs : node) (p : path) : option string :=
  match node_at fs p with
  | Some (File content) => Some (universal_newlines content)
  | _ => None
  end.

(** The path that the operating system reaches along segments that may
    include [".."] (the tree has no symbolic links): every step starts
    from an existing directory, and [".."] leads to its parent. *)
Fixpoint os_resolve (fs : node) (cur : path) (segs : list string) : option path :=
  match segs with
  | [] => Some cur
  | s :: rest =>
      match node_at fs cur with
      | Some (Dir _) =>
          os_resolve fs (if String.eqb s ".." then parent cur else cur ++ [s]) rest
      | _ => None
      end
  end.

(** [code_path.exists()] and [code_path.read_text(...)] for a path that
    was joined from a blob id and is not resolved by the program. *)
Definition os_exists (fs : node) (p : path) : bool :=
  match os_resolve fs [] p with
  | Some q => path_exists fs q
  | None => false
  end.

Definition os_read_text (fs : node) (p : path) : option string :=
  match os_resolve fs [] p with
  | Some q => read_text fs q
  | None => None
  end.

(** Lines 260-273: place the text of the chosen snapshot. *)
Definition place_step (dry_run : bool) (st : run_state) (item : path * string)
    : result run_state :=
  let src_path := fst item in
  let text := snd item in
  let '(dest_path, placer') := choose_dest (fs_now st) (placer st) src_path in
  perform fs1 <- mkdir_p (parent dest_path) (fs_now st);;
  if negb dry_run then
    match write_text dest_path text fs1 with
    | Raise e =>
        OK {| fs_now := fs1; placer := placer'; stdout := stdout st;
              stderr := stderr st ++ [CouldNotWrite dest_path e];
              restored_count := restored_count st |}
    | OK fs2 =>
        OK {| fs_now := fs2; placer := placer';
              stdout := stdout st ++ [("RESTORED", src_path, dest_path)];
              stderr := stderr st;
              restored_count := restored_count st + 1 |}
    end
  else
    OK {| fs_now := fs1; placer := placer';
          stdout := stdout st ++ [("WOULD_RESTORE", src_path, dest_path)];
          stderr := stderr st;
          restored_count := restored_count st + 1 |}.

(** The body of [for file_history_folder, data in file_histories]. *)
Definition restore_one (dry_run : bool) (after_ms before_ms : option Z)
    (st : run_state) (t : tracked_file) : result run_state :=
  let src_path := resource_path t in
  if negb (admitted (restore_from (placer st)) src_path) then OK st else
  perform chosen <- select (history_entries t) after_ms before_ms;;
  match chosen with
  | None => OK st
  | Some chosen =>
      match id chosen with
      | None => OK st
      | Some last_id =>
          if String.eqb last_id "" then OK st else
          let code_path := div_str (file_history_folder t) last_id in
          let alt := div_str (file_history_folder t ++ ["entries"]) last_id in
          let missing := MissingBlob src_path last_id in
          let found :=
            if os_exists (fs_now st) code_path then Some code_path
            else if os_exists (fs_now st) alt then Some alt
            else None in
          match found with
          | None => OK (warn st missing)
          | Some code_path =>
              match os_read_text (fs_now st) code_path with
              | None => OK (warn st (CouldNotRead code_path OSError))
              | Some text => place_step dry_run st (src_path, text)
              end
          end
      end
  end.

Fixpoint restore_loop (dry_run : bool) (after_ms before_ms : option Z)
    (files : list tracked_file) (st : run_state) : result run_state :=
  match files with
  | [] => OK st
  | t :: files' =>
      perform st' <- restore_one dry_run after_ms before_ms st t;;
      restore_loop dry_run after_ms before_ms files' st'
  end.

(** [main] from [restore_to.mkdir(...)] on, for validated bounds and the
    loaded histories; an empty history list ends the run with a warning
    ([sys.exit(0)]) before the loop. *)
Definition main_restore (dry_run : bool) (restore_from restore_to : path)
    (after_ms before_ms : option Z) (fs : node) (file_histories : list tracked_file)
    : result run_state :=
  perform fs0 <- mkdir_p restore_to fs;;
  let st := {| fs_now := fs0; placer := DestPlacer_init restore_from restore_to;
               stdout := []; stderr := []; restored_count := 0 |} in
  match file_histories with
  | [] => OK (warn st NoEntriesFound)
  | _ => restore_loop dry_run after_ms before_ms file_histories st
  end.

(** ** Start-up of [main] *)

(** How the start-up of [main] ends: it goes on to load the histories,
    it prints an error and calls [sys.exit(1)], or an exception that
    [main] does not catch ends the run (a date that [parse_when] rejects,
    an OSError of [mkdir]). Each case carries the file system it leaves. *)
Inductive startup : Type :=
  | Proceed (fs : node) (before_ms after_ms : option Z)
  | SysExit (fs : node) (message : string)
  | Uncaught (fs : node).

(** Truthiness of an optional command-line string: [None] and the empty
    string are false. *)
Definition given (arg : option string) : bool :=
  match arg with
  | Some s => negb (String.eqb s "")
  | None => false
  end.

Section Startup.

(** [to_epoch_ms_local(parse_when(s))]; [None] when [parse_when] raises
    ValueError. *)
Variable to_ms : string -> option Z.

(** [... if args.before else None], with the bound parsed when given. *)
Definition bound_ms (arg : option string) : option (option Z) :=
  match arg with
  | Some s => if String.eqb s "" then Some None
              else match to_ms s with
                   | Some ms => Some (Some ms)
                   | None => None
                   end
  | None => Some None
  end.

(** Lines 182-195 of [main], for expanded and resolved paths. *)
Definition main_startup (history_root restore_to : path)
    (before after : option string) (fs : node) : startup :=
  if negb (path_exists fs history_root) then
    SysExit fs ("[error] history directory not found: " +:+ abs_str history_root)
  else
    match mkdir_p restore_to fs with
    | Raise _ => Uncaught fs
    | OK fs0 =>
        if negb (given before) && negb (given after) then
          SysExit fs0 "[error] Provide at least one bound: --before, --after, or both."
        else
          match bound_ms before with
          | None => Uncaught fs0
          | Some before_ms =>
              match bound_ms after with
              | None => Uncaught fs0
              | Some after_ms =>
                  match before_ms, after_ms with
                  | Some b, Some a =>
                      if (b <=? a)%Z then
                        SysExit fs0 "[error] --after must be earlier than --before."
                      else Proceed fs0 before_ms after_ms
                  | _, _ => Proceed fs0 before_ms after_ms
                  end
              end
          end
    end.

End Startup.

(** ** dequote_and_expand *)

Definition double_quote : Ascii.ascii := "034"%char.

Definition single_quote : Ascii.ascii := "039"%char.

(** [p.startswith(c)] for a one-character [c]. *)
Definition startswith (c : Ascii.ascii) (p : string) : bool :=
  match p with
  | String a _ => Ascii.eqb a c
  | EmptyString => false
  end.

(** [p.endswith(c)] for a one-character [c]. *)
Fixpoint endswith (c : Ascii.ascii) (p : string) : bool :=
  match p with
  | EmptyString => false
  | String a EmptyString => Ascii.eqb a c
  | String _ p' => endswith c p'
  end.

(** [p[1:-1]]. *)
Definition slice_1_m1 (p : string) : string :=
  String.substring 1 (String.length p - 2) p.

Section Dequote.

(** [os.path.expanduser], [os.path.expandvars] and [pathlib.Path], which
    depend on the environment of the process. *)
Variable expanduser : string -> string.
Variable expandvars : string -> string.
Variable T : Type.
Variable mkpath : string -> T.

Definition dequote_and_expand (p : string) : T :=
  let p :=
    if (startswith double_quote p && endswith double_quote p)
       || (startswith single_quote p && endswith single_quote p)
    then slice_1_m1 p
    else p in
  let p := expandvars (expanduser p) in
  mkpath p.

End Dequote.

(** * Specification-level definitions *)

(** Measures, orders and invariants used to state the properties. *)

(** Length of the longest common prefix, by structural recursion. *)
Fixpoint common_prefix_len (a b : list string) : nat :=
  match a, b with
  | x :: a', y :: b' =>
      if String.eqb x y then S (common_prefix_len a' b') else 0
  | _, _ => 0
  end.

(** The suffix length as the specification words it: segments compared
    from the file name backward (file name, parent directory, grandparent
    directory, and so on) over the paths' own segment sequences. *)
Definition spec_suffix_len (a b : path) : nat :=
  common_prefix_len (reverse a) (reverse b).

(** A well-formed index entry: stored under its own file name and lying
    inside the destination root. *)
Definition cand_ok (root_to : path) (k : string) (c : path) : Prop :=
  (exists dir, c = dir ++ [k]) /\ root_to `prefix_of` c.

Definition idx_ok (root_to : path) (idx : gmap string (list path)) : Prop :=
  forall k l, idx !! k = Some l -> Forall (cand_ok root_to k) l.

(** The invariant of a placer: its index, once built, is well formed. *)
Definition index_ok (self : DestPlacer) : Prop :=
  match _index self with
  | None => True
  | Some idx => idx_ok (restore_to self) idx
  end.

(** The order that [score_gt] decides: lexicographic on pairs. *)
Definition score_le (s t : Z * Z) : Prop :=
  (fst s < fst t \/ (fst s = fst t /\ snd s <= snd t))%Z.

(** What the selection loop accepts: a present timestamp inside the
    window. *)
Definition qualifies (after_ms before_ms : option Z) (e : entry) : bool :=
  match ts_get e with
  | Some ts => in_window after_ms before_ms ts
  | None => false
  end.

(** The order the sort establishes: both keys are integers, in ascending
    order. *)
Definition key_rel (x y : entry) : Prop :=
  exists a b, sort_key x = Some a /\ sort_key y = Some b /\ (a <= b)%Z.


(** A file-system tree in which no directory lists a name twice. *)
Fixpoint wf_node (n : node) : Prop :=
  match n with
  | File _ => True
  | Dir ch =>
      NoDup (map fst ch) /\
      (fix all (l : list (string * node)) : Prop :=
         match l with
         | [] => True
         | (_, c) :: l' => wf_node c /\ all l'
         end) ch
  end.

(** Every path stored in an index satisfies [P] for the name it is stored
    under. *)
Definition idx_all_of (P : string -> path -> Prop)
    (idx : gmap string (list path)) : Prop :=
  forall k p, p ∈ default [] (idx !! k) -> P k p.

(** The record a history file contributes to the loaded sequence, if
    any: a decoded object with a [resource] member and a non-empty
    [entries] member, paired with the folder of the file. *)
Definition kept_record (r : path * file_read) : option (path * json) :=
  match snd r with
  | Parsed (JObj m) =>
      match obj_get "entries" m, obj_get "resource" m with
      | Some es, Some _ =>
          if truthy es then Some (parent (fst r), JObj m) else None
      | _, _ => None
      end
  | _ => None
  end.

(** The warning a history file causes, if any. *)
Definition record_warnings (r : path * file_read) : list string :=
  match snd r with
  | JSONDecodeError msg =>
      ["[warn] could not parse JSON: " +:+ abs_str (fst r) +:+ " (" +:+ msg +:+ ")"]
  | _ => []
  end.

(** The decoded values on which the loader's membership tests or its
    subscript raise: a non-zero number, [true], and a string or a list
    that passes both membership tests. *)
Definition aborts_loader (j : json) : bool :=
  match j with
  | JNull => false
  | JBool b => b
  | JNum z => negb (z =? 0)%Z
  | JStr s => substring_of "entries" s && substring_of "resource" s
  | JArr l =>
      existsb (fun x => match x with JStr s => String.eqb s "entries" | _ => false end) l
      && existsb (fun x => match x with JStr s => String.eqb s "resource" | _ => false end) l
  | JObj _ => false
  end.

(** The exception that a history file makes the loader raise, if any:
    the one that escapes [load_json], or the TypeError of the membership
    tests and the subscript on the decoded value. *)
Definition raised_by (f : file_read) : option exn :=
  match f with
  | Escapes e => Some e
  | Parsed j => if aborts_loader j then Some TypeError else None
  | _ => None
  end.

(** The verb of a report line in the given mode. *)
Definition action_of (dry_run : bool) : string :=
  if dry_run then "WOULD_RESTORE" else "RESTORED".

(** What one step of the restore loop may add to the report: lines with
    the verb of the mode, all about the given historical path, each
    counted once. *)
Definition reports (dry_run : bool) (src_path : path) (st st' : run_state) : Prop :=
  exists lines,
    stdout st' = stdout st ++ lines /\
    restored_count st' = restored_count st + length lines /\
    Forall (fun line => line.1.1 = action_of dry_run /\ line.1.2 = src_path) lines.

(** * Worked inputs *)

(** A worked tree: the destination [/new/proj] holds [util.py] at its top
    and in [lib]; the history speaks of [/bak/proj/lib/util.py]. *)
Module Reorganized.

Definition fs : node :=
  Dir [("new",
        Dir [("proj",
              Dir [("util.py", File "top");
                   ("lib", Dir [("util.py", File "lib")])])])].

Definition self : DestPlacer := DestPlacer_init ["old"; "proj"] ["new"; "proj"].

Definition src : path := ["bak"; "proj"; "lib"; "util.py"].

Definition deep : path := ["new"; "proj"; "lib"; "util.py"].

Definition shallow : path := ["new"; "proj"; "util.py"].

End Reorganized.

(** Two snapshots of one file: a record without a timestamp, and one
    saved at 5 ms. *)
Module Snapshots.

Definition untimed : entry := {| timestamp := TsAbsent; id := Some "u" |}.

Definition nulled : entry := {| timestamp := TsNull; id := Some "n" |}.

Definition at5 : entry := {| timestamp := TsInt 5; id := Some "b" |}.

End Snapshots.

(** A history folder with three unusable records and a good one. *)
Module History.

Definition no_entries : path * file_read :=
  (["hist"; "1"; "entries.json"],
   Parsed (JObj [("resource", JStr "file:///proj/a.py")])).

Definition garbled : path * file_read :=
  (["hist"; "2"; "entries.json"], JSONDecodeError "Expecting value").

Definition empty : path * file_read :=
  (["hist"; "3"; "entries.json"],
   Parsed (JObj [("resource", JStr "file:///proj/b.py"); ("entries", JArr [])])).

Definition good_data : json :=
  JObj [("resource", JStr "file:///proj/c.py");
        ("entries", JArr [JObj [("id", JStr "x"); ("timestamp", JNum 5)]])].

Definition good : path * file_read :=
  (["hist"; "4"; "entries.json"], Parsed good_data).

End History.

(** A history store with two tracked files, each with one snapshot at
    300 ms, and a destination [/proj2] that is still empty. The first file
    lies under the source root [/proj]; the second under another checkout
    whose path contains the anchor folder [proj]. *)
Module DryRun.

Definition fs : node :=
  Dir [("hist",
        Dir [("1", Dir [("entries.json", File "{}"); ("s1.py", File "first")]);
             ("2", Dir [("entries.json", File "{}"); ("s2.py", File "second")])]);
       ("proj2", Dir [])].

Definition first : tracked_file :=
  {| file_history_folder := ["hist"; "1"];
     resource_path := ["proj"; "x"; "a.py"];
     history_entries := [{| timestamp := TsInt 300; id := Some "s1.py" |}] |}.

Definition second : tracked_file :=
  {| file_history_folder := ["hist"; "2"];
     resource_path := ["other"; "proj"; "y"; "a.py"];
     history_entries := [{| timestamp := TsInt 300; id := Some "s2.py" |}] |}.

Definition run (dry_run : bool) (files : list tracked_file) : result run_state :=
  main_restore dry_run ["proj"] ["proj2"] (Some 150%Z) None fs files.

Definition reported (r : result run_state) : list (path * path) :=
  match r with
  | OK st => map (fun line => (snd (fst line), snd line)) (stdout st)
  | Raise _ => []
  end.

End DryRun.

(** A run that restores two files of the same name, both recorded
    outside the source root [/proj]: the first is written while the
    second is still to be placed. *)
Module Stale.

Definition early : tracked_file :=
  {| file_history_folder := ["hist"; "1"];
     resource_path := ["bak"; "proj"; "x"; "a.py"];
     history_entries := [{| timestamp := TsInt 300; id := Some "s1.py" |}] |}.

Definition late : tracked_file :=
  {| file_history_folder := ["hist"; "2"];
     resource_path := ["bak"; "proj"; "y"; "a.py"];
     history_entries := [{| timestamp := TsInt 300; id := Some "s2.py" |}] |}.

Definition start : run_state :=
  {| fs_now := DryRun.fs; placer := DestPlacer_init ["proj"] ["proj2"];
     stdout := []; stderr := []; restored_count := 0 |}.

(** The state in which [late] is placed: [early] has been restored. *)
Definition mid : run_state :=
  match restore_one false (Some 150%Z) None start early with
  | OK st => st
  | Raise _ => start
  end.

End Stale.

(** Two snapshots with the same timestamp, and an older one. *)
Module Ties.

Definition at3 : entry := {| timestamp := TsInt 3; id := Some "a" |}.

Definition first5 : entry := {| timestamp := TsInt 5; id := Some "b" |}.

Definition second5 : entry := {| timestamp := TsInt 5; id := Some "c" |}.

Definition entries : list entry := [first5; second5; at3].

End Ties.

(** * Properties *)

(** ** Paths *)

Section PathFacts.

Implicit Types (p q dirs : path) (f s : string).

Lemma name_snoc dirs f : name (dirs ++ [f]) = f.
Proof. unfold name. apply last_last. Qed.

Lemma name_nil : name [] = "".
Proof. reflexivity. Qed.

Lemma parent_snoc dirs f : parent (dirs ++ [f]) = dirs.
Proof. unfold parent. apply removelast_last. Qed.

Lemma parents_snoc dirs f : parents (dirs ++ [f]) = dirs :: parents dirs.
Proof.
  unfold parents. rewrite length_app, Nat.add_1_r. simpl.
  now rewrite parent_snoc.
Qed.

Lemma parents_nil : parents [] = [].
Proof. reflexivity. Qed.

(** The directory names listed by [name_parts] run from the parent up
    to the top-level directory: they are the directory segments in
    reverse order. *)
Lemma dir_names_snoc dirs f :
  map name (removelast (parents (dirs ++ [f]))) = reverse dirs.
Proof.
  revert f. induction dirs as [|d dirs IH] using rev_ind; intros f.
  - reflexivity.
  - rewrite parents_snoc.
    change (removelast ((dirs ++ [d]) :: parents (dirs ++ [d])))
      with (match parents (dirs ++ [d]) with
            | [] => []
            | _ :: _ => (dirs ++ [d]) :: removelast (parents (dirs ++ [d]))
            end).
    rewrite parents_snoc at 1. simpl map.
    rewrite IH, name_snoc, reverse_snoc. reflexivity.
Qed.

Lemma name_parts_snoc dirs f : name_parts (dirs ++ [f]) = reverse dirs ++ [f].
Proof. unfold name_parts. now rewrite dir_names_snoc, name_snoc. Qed.

Lemma name_parts_nil : name_parts [] = [""].
Proof. reflexivity. Qed.

Lemma name_parts_last p : exists front, name_parts p = front ++ [name p].
Proof. unfold name_parts. eauto. Qed.

Lemma length_name_parts p : length (name_parts p) = Nat.max 1 (length p).
Proof.
  destruct p as [|d dirs _] using rev_ind.
  - reflexivity.
  - rewrite name_parts_snoc, !length_app, length_reverse. simpl. lia.
Qed.

Lemma relative_to_Some p base rel :
  relative_to p base = Some rel <-> p = base ++ rel.
Proof.
  revert p. induction base as [|b base IH]; intros p; simpl.
  - split; [intros [= ->] | intros ->]; reflexivity.
  - destruct p as [|s p]; [split; discriminate|].
    destruct (String.eqb_spec s b) as [->|Hne].
    + rewrite IH. split; [intros -> | intros [= ->]]; reflexivity.
    + split; [discriminate | intros [= ? ?]; congruence].
Qed.

Lemma relative_to_None p base :
  relative_to p base = None <-> ~ base `prefix_of` p.
Proof.
  split.
  - intros H [rel Hrel]. apply relative_to_Some in Hrel. congruence.
  - intros H. destruct (relative_to p base) as [rel|] eqn:E; [|reflexivity].
    apply relative_to_Some in E. exfalso. apply H. now exists rel.
Qed.

Lemma relative_to_self p : relative_to p p = Some [].
Proof. apply relative_to_Some. now rewrite app_nil_r. Qed.

End PathFacts.

(** ** common_suffix_len computes a common suffix *)

Lemma neg_index_reverse (l : list string) (k : nat) :
  neg_index l (S k) = reverse l !! k.
Proof.
  unfold neg_index. change (1 <=? S k) with true. cbv beta iota delta [andb].
  destruct (Nat.leb_spec (S k) (length l)) as [Hle|Hgt].
  - rewrite reverse_lookup by lia. reflexivity.
  - symmetry. apply lookup_ge_None. rewrite length_reverse. lia.
Qed.

Lemma common_prefix_len_drop (a b : list string) (k : nat) :
  common_prefix_len (drop k a) (drop k b) =
  match a !! k, b !! k with
  | Some x, Some y =>
      if String.eqb x y
      then S (common_prefix_len (drop (S k) a) (drop (S k) b))
      else 0
  | _, _ => 0
  end.
Proof.
  destruct (a !! k) as [x|] eqn:Ea.
  - rewrite (drop_S a x k Ea).
    destruct (b !! k) as [y|] eqn:Eb.
    + rewrite (drop_S b y k Eb). reflexivity.
    + rewrite (drop_ge b k) by now apply lookup_ge_None. reflexivity.
  - rewrite (drop_ge a k) by now apply lookup_ge_None. reflexivity.
Qed.

Lemma common_suffix_loop_spec (a b : list string) (fuel k : nat) :
  let limit := Nat.min (length a) (length b) in
  limit - k < fuel -> k <= limit ->
  common_suffix_loop fuel (S k) limit a b =
  S k + common_prefix_len (drop k (reverse a)) (drop k (reverse b)).
Proof.
  intros limit. revert k.
  induction fuel as [|fuel IH]; intros k Hfuel Hk; [lia|].
  cbn [common_suffix_loop]. rewrite common_prefix_len_drop.
  rewrite !neg_index_reverse, (Nat.add_1_r (S k)).
  destruct (Nat.leb_spec (S k) limit) as [Hle|Hgt]; cbn [andb].
  - destruct (reverse a !! k) as [x|]; [|lia].
    destruct (reverse b !! k) as [y|]; [|lia].
    destruct (String.eqb x y); [|lia].
    rewrite IH by lia. lia.
  - assert (Hnone : reverse a !! k = None \/ reverse b !! k = None).
    { destruct (Nat.le_ge_cases (length a) (length b)).
      - left. apply lookup_ge_None. rewrite length_reverse. lia.
      - right. apply lookup_ge_None. rewrite length_reverse. lia. }
    destruct Hnone as [-> | ->]; [lia|].
    destruct (reverse a !! k); lia.
Qed.

(** The loop never runs out of fuel: the result is the length of the
    longest common prefix of the two reversed lists, that is, of the
    longest common suffix of the lists given. *)
Lemma common_suffix_len_spec (a b : list string) :
  common_suffix_len a b = common_prefix_len (reverse a) (reverse b).
Proof.
  unfold common_suffix_len.
  pose proof (common_suffix_loop_spec a b (S (Nat.min (length a) (length b))) 0) as H.
  cbv zeta in H. rewrite H by lia. rewrite !drop_0. lia.
Qed.

Lemma common_suffix_len_snoc (a b : list string) (x y : string) :
  common_suffix_len (a ++ [x]) (b ++ [y]) =
  if String.eqb x y then S (common_suffix_len a b) else 0.
Proof.
  rewrite !common_suffix_len_spec, !reverse_snoc. reflexivity.
Qed.

Lemma common_suffix_len_le_l (a b : list string) :
  common_suffix_len a b <= length a.
Proof.
  rewrite common_suffix_len_spec, <- (length_reverse a).
  generalize (reverse a) (reverse b). clear.
  induction l as [|x l IH]; intros [|y l']; simpl; try lia.
  destruct (String.eqb x y); [specialize (IH l')|]; lia.
Qed.

(** For two files of the same name, the suffix length that tier 2
    computes is one more than the number of leading directories the two
    paths share, counted from the root: the directory names reach
    [common_suffix_len] in reverse. *)
Lemma common_suffix_len_name_parts (dirs1 dirs2 : path) (f : string) :
  common_suffix_len (name_parts (dirs1 ++ [f])) (name_parts (dirs2 ++ [f]))
  = S (common_prefix_len dirs1 dirs2).
Proof.
  rewrite !name_parts_snoc, common_suffix_len_snoc, String.eqb_refl.
  now rewrite common_suffix_len_spec, !reverse_involutive.
Qed.

(** ** The destination index *)

(** Induction on file-system trees, with the hypothesis for every child
    of a directory. *)
Lemma node_rect_children (P : node -> Prop)
    (HFile : forall content, P (File content))
    (HDir : forall ch, Forall (fun e => P (snd e)) ch -> P (Dir ch)) :
  forall n, P n.
Proof.
  fix IH 1. intros [content|ch].
  - apply HFile.
  - apply HDir. induction ch as [|[nm c] ch IHch].
    + constructor.
    + constructor; [apply IH | apply IHch].
Qed.

(** Every directory reported by [os.walk(top)] lies under [top]. *)
Lemma os_walk_roots (n : node) :
  forall top, Forall (fun rf => top `prefix_of` fst rf) (os_walk top n).
Proof.
  induction n as [content|ch IH] using node_rect_children; intros top.
  - constructor.
  - cbn [os_walk]. constructor; [reflexivity|].
    induction IH as [|[nm c] ch Hc _ IHch]; [constructor|].
    apply Forall_app. split; [|exact IHch].
    eapply Forall_impl; [apply (Hc (top ++ [nm]))|].
    intros rf Hrf. cbn beta in Hrf.
    etransitivity; [|exact Hrf]. now apply prefix_app_r.
Qed.

Lemma os_walk_at_roots (fs : node) (top : path) :
  Forall (fun rf => top `prefix_of` fst rf) (os_walk_at fs top).
Proof.
  unfold os_walk_at. destruct (node_at fs top); [apply os_walk_roots | constructor].
Qed.

Lemma idx_ok_empty (root_to : path) : idx_ok root_to ∅.
Proof. intros k l H. rewrite lookup_empty in H. discriminate. Qed.

Lemma idx_ok_append (root_to : path) (fn : string) (p : path)
    (idx : gmap string (list path)) :
  idx_ok root_to idx -> cand_ok root_to fn p ->
  idx_ok root_to (idx_append fn p idx).
Proof.
  intros Hidx Hp k l. unfold idx_append.
  destruct (decide (fn = k)) as [->|Hne].
  - rewrite lookup_insert_eq. intros [= <-].
    apply Forall_app. split; [|constructor; [exact Hp | constructor]].
    destruct (idx !! k) as [l0|] eqn:E; [now apply (Hidx k) | constructor].
  - rewrite lookup_insert_ne by exact Hne. apply Hidx.
Qed.

Lemma idx_ok_files (root_to root : path) (files : list string) :
  root_to `prefix_of` root ->
  forall idx, idx_ok root_to idx ->
  idx_ok root_to (foldl (fun idx fn => idx_append fn (root ++ [fn]) idx) idx files).
Proof.
  intros Hroot. induction files as [|fn files IH]; intros idx Hidx; [exact Hidx|].
  cbn [foldl]. apply IH, idx_ok_append; [exact Hidx|].
  split; [now exists root | now apply prefix_app_r].
Qed.

Lemma index_of_walk_ok (root_to : path) (w : list (path * list string)) :
  Forall (fun rf => root_to `prefix_of` fst rf) w ->
  idx_ok root_to (index_of_walk w).
Proof.
  unfold index_of_walk. generalize (idx_ok_empty root_to).
  generalize (∅ : gmap string (list path)).
  induction w as [|rf w IH]; intros idx Hidx Hw; [exact Hidx|].
  inversion Hw as [|? ? Hrf Hw']; subst.
  cbn [foldl]. apply IH; [|exact Hw'].
  now apply idx_ok_files.
Qed.

Lemma _build_index_ok (fs : node) (self : DestPlacer) :
  index_ok (_build_index fs self).
Proof. apply index_of_walk_ok, os_walk_at_roots. Qed.

Lemma _index_candidates_ok (fs : node) (self : DestPlacer) (filename : string) :
  index_ok self ->
  let '(candidates, self') := _index_candidates fs self filename in
  Forall (cand_ok (restore_to self) filename) candidates /\
  index_ok self' /\
  restore_to self' = restore_to self /\
  restore_from self' = restore_from self /\
  restore_from_name self' = restore_from_name self.
Proof.
  intros Hok. unfold _index_candidates.
  assert (Hbuilt : index_ok (match _index self with
                             | None => _build_index fs self
                             | Some _ => self
                             end)).
  { destruct (_index self); [exact Hok | apply _build_index_ok]. }
  assert (Hsame : forall s', s' = match _index self with
                                  | None => _build_index fs self
                                  | Some _ => self
                                  end ->
            restore_to s' = restore_to self /\
            restore_from s' = restore_from self /\
            restore_from_name s' = restore_from_name self).
  { intros s' ->. destruct (_index self); auto. }
  destruct (Hsame _ eq_refl) as (Hto & Hfrom & Hnm).
  set (s' := match _index self with
             | None => _build_index fs self
             | Some _ => self
             end) in *.
  repeat split; try assumption.
  unfold index_ok in Hbuilt. rewrite <- Hto.
  destruct (_index s') as [idx|]; [|constructor].
  destruct (idx !! filename) as [l|] eqn:E; [|constructor].
  exact (Hbuilt _ _ E).
Qed.

(** *** Every file under the destination root is indexed *)

Lemma os_walk_Dir (top : path) (ch : list (string * node)) :
  os_walk top (Dir ch) =
  (top, file_names ch) ::
  flat_map (fun e => os_walk (top ++ [fst e]) (snd e)) ch.
Proof.
  cbn [os_walk]. f_equal.
  induction ch as [|[nm c] ch IH]; [reflexivity|].
  cbn [flat_map fst snd]. now rewrite <- IH.
Qed.

Lemma lookup_child_elem (nm : string) (ch : list (string * node)) (c : node) :
  lookup_child nm ch = Some c -> (nm, c) ∈ ch.
Proof.
  induction ch as [|[k x] ch IH]; cbn [lookup_child]; [discriminate|].
  destruct (String.eqb_spec k nm) as [->|Hne].
  - intros [= ->]. left.
  - intros H. right. now apply IH.
Qed.

Lemma lookup_child_file_names (f : string) (ch : list (string * node))
    (content : string) :
  lookup_child f ch = Some (File content) -> f ∈ file_names ch.
Proof.
  intros H. apply lookup_child_elem in H.
  unfold file_names. apply list_elem_of_In, in_flat_map.
  exists (f, File content). split; [now apply list_elem_of_In | now left].
Qed.

Lemma os_walk_complete (rel : list string) :
  forall (n : node) (top : path) (f content : string),
    node_at n (rel ++ [f]) = Some (File content) ->
    exists files, (top ++ rel, files) ∈ os_walk top n /\ f ∈ files.
Proof.
  induction rel as [|s rel IH]; intros n top f content; cbn [app node_at].
  - destruct n as [|ch]; [discriminate|].
    destruct (lookup_child f ch) as [c|] eqn:Hc; [|discriminate].
    intros [= ->]. exists (file_names ch). rewrite os_walk_Dir, app_nil_r.
    split; [left | now apply lookup_child_file_names in Hc].
  - destruct n as [|ch]; [discriminate|].
    destruct (lookup_child s ch) as [c|] eqn:Hc; [|discriminate].
    intros Hnode.
    destruct (IH c (top ++ [s]) f content Hnode) as (files & Hin & Hf).
    exists files. split; [|exact Hf].
    rewrite os_walk_Dir. right.
    apply list_elem_of_In, in_flat_map. exists (s, c).
    split; [now apply list_elem_of_In, lookup_child_elem|].
    apply list_elem_of_In. cbn [fst snd].
    now rewrite <- app_assoc in Hin.
Qed.

Lemma node_at_app (fs : node) (p q : path) :
  node_at fs (p ++ q) =
  match node_at fs p with
  | Some n => node_at n q
  | None => None
  end.
Proof.
  revert fs. induction p as [|s p IH]; intros fs; cbn [app node_at]; [reflexivity|].
  destruct fs as [|ch]; [reflexivity|].
  destruct (lookup_child s ch); [apply IH | reflexivity].
Qed.

Lemma idx_append_mono (fn k : string) (p q : path) (idx : gmap string (list path)) :
  q ∈ default [] (idx !! k) -> q ∈ default [] (idx_append fn p idx !! k).
Proof.
  unfold idx_append. destruct (decide (fn = k)) as [->|Hne].
  - rewrite lookup_insert_eq. cbn [default]. intros H. apply elem_of_app. now left.
  - now rewrite lookup_insert_ne.
Qed.

Lemma idx_append_elem (fn : string) (p : path) (idx : gmap string (list path)) :
  p ∈ default [] (idx_append fn p idx !! fn).
Proof.
  unfold idx_append. rewrite lookup_insert_eq. cbn [default].
  apply elem_of_app. right. left.
Qed.

Lemma index_files_mono (root : path) (files : list string) (k : string) (q : path) :
  forall idx,
    q ∈ default [] (idx !! k) ->
    q ∈ default []
          (foldl (fun idx fn => idx_append fn (root ++ [fn]) idx) idx files !! k).
Proof.
  induction files as [|fn files IH]; intros idx H; [exact H|].
  cbn [foldl]. now apply IH, idx_append_mono.
Qed.

Lemma index_files_complete (root : path) (files : list string) (f : string) :
  f ∈ files ->
  forall idx,
    root ++ [f] ∈ default []
      (foldl (fun idx fn => idx_append fn (root ++ [fn]) idx) idx files !! f).
Proof.
  induction 1 as [f files|f fn files Hin IH]; intros idx; cbn [foldl].
  - apply index_files_mono, idx_append_elem.
  - apply IH.
Qed.

Lemma index_walk_mono (w : list (path * list string)) (k : string) (q : path) :
  forall idx,
    q ∈ default [] (idx !! k) ->
    q ∈ default []
          (foldl (fun idx rf =>
                    foldl (fun idx fn => idx_append fn (fst rf ++ [fn]) idx)
                          idx (snd rf)) idx w !! k).
Proof.
  induction w as [|rf w IH]; intros idx H; [exact H|].
  cbn [foldl]. now apply IH, index_files_mono.
Qed.

Lemma index_of_walk_complete (w : list (path * list string)) (root : path)
    (files : list string) (f : string) :
  (root, files) ∈ w -> f ∈ files ->
  root ++ [f] ∈ default [] (index_of_walk w !! f).
Proof.
  unfold index_of_walk. generalize (∅ : gmap string (list path)).
  induction w as [|rf w IH]; intros idx Hin Hf; [inversion Hin|].
  cbn [foldl]. apply elem_of_cons in Hin as [<-|Hin].
  - apply index_walk_mono. cbn [fst snd]. now apply index_files_complete.
  - now apply IH.
Qed.

(** A file found in the destination tree when the index is built is a
    candidate for its own name. *)
Lemma existing_file_is_candidate (fs : node) (self : DestPlacer)
    (rel : list string) (f content : string) :
  _index self = None ->
  node_at fs (restore_to self ++ rel ++ [f]) = Some (File content) ->
  restore_to self ++ rel ++ [f] ∈ fst (_index_candidates fs self f).
Proof.
  intros Hnone Hfile. unfold _index_candidates. rewrite Hnone.
  cbn [_build_index _index fst]. unfold os_walk_at.
  rewrite node_at_app in Hfile.
  destruct (node_at fs (restore_to self)) as [n|]; [|discriminate].
  destruct (os_walk_complete rel n (restore_to self) f content Hfile)
    as (files & Hin & Hf).
  rewrite app_assoc. now apply (index_of_walk_complete _ _ files).
Qed.

(** ** Tier 2: the best-scoring candidate *)

Lemma score_gt_false (s t : Z * Z) : score_gt s t = false <-> score_le s t.
Proof.
  unfold score_gt, score_le.
  rewrite orb_false_iff, andb_false_iff, !Z.ltb_ge, Z.eqb_neq. lia.
Qed.

Lemma score_gt_true (s t : Z * Z) : score_gt s t = true -> score_le t s.
Proof.
  unfold score_gt, score_le.
  rewrite orb_true_iff, andb_true_iff, !Z.ltb_lt, Z.eqb_eq. lia.
Qed.

Lemma score_le_refl (s : Z * Z) : score_le s s.
Proof. unfold score_le. lia. Qed.

Lemma score_le_trans (s t u : Z * Z) : score_le s t -> score_le t u -> score_le s u.
Proof. unfold score_le. lia. Qed.

#[local] Hint Resolve score_le_refl score_le_trans : core.

Lemma best_step_cases (src_parts : list string) (st : option path * (Z * Z))
    (cand : path) :
  score_le (snd st) (snd (best_step src_parts st cand)) /\
  score_le (score src_parts cand) (snd (best_step src_parts st cand)) /\
  (best_step src_parts st cand = st \/
   best_step src_parts st cand = (Some cand, score src_parts cand)).
Proof.
  unfold best_step. cbv zeta.
  destruct (score_gt (score src_parts cand) (snd st)) eqn:E.
  - apply score_gt_true in E. cbn [snd]. auto.
  - apply score_gt_false in E. auto.
Qed.

(** Invariant of the candidate loop: the running score never decreases,
    dominates every candidate seen, and belongs to the running best. *)
Lemma best_fold_inv (src_parts : list string) (candidates : list path) :
  forall st,
    let st' := foldl (best_step src_parts) st candidates in
    score_le (snd st) (snd st') /\
    (forall c, c ∈ candidates -> score_le (score src_parts c) (snd st')) /\
    (st' = st \/ exists c, c ∈ candidates /\ st' = (Some c, score src_parts c)).
Proof.
  induction candidates as [|cand rest IH]; intros st; cbn [foldl].
  - split; [auto|]. split; [|now left]. intros c Hc. inversion Hc.
  - destruct (best_step_cases src_parts st cand) as (Hmono & Hcand & Hcase).
    destruct (IH (best_step src_parts st cand)) as (Hmono' & Hall & Hbest).
    split; [eauto|]. split.
    + intros c Hc. apply elem_of_cons in Hc as [->|Hc]; eauto.
    + destruct Hbest as [Heq|(c & Hc & Heq)].
      * destruct Hcase as [Hst|Hst].
        -- left. congruence.
        -- right. exists cand. split; [left | congruence].
      * right. exists c. split; [now right | exact Heq].
Qed.

(** Tier 2 returns a candidate whose score no other candidate exceeds. *)
Lemma tier2_Some (src_path : path) (candidates : list path) (b : path) :
  tier2 src_path candidates = Some b ->
  b ∈ candidates /\
  (0 < fst (score (name_parts src_path) b))%Z /\
  forall c, c ∈ candidates ->
    score_le (score (name_parts src_path) c) (score (name_parts src_path) b).
Proof.
  unfold tier2. destruct candidates as [|c0 rest]; [discriminate|].
  pose proof (best_fold_inv (name_parts src_path) (c0 :: rest)
                (None, ((-1)%Z, (-1)%Z))) as Hinv.
  cbv zeta in Hinv. fold (best_loop (name_parts src_path) (c0 :: rest)) in Hinv.
  destruct (best_loop (name_parts src_path) (c0 :: rest)) as [best sc].
  destruct Hinv as (_ & Hall & Hbest).
  destruct best as [b'|]; [|discriminate].
  destruct (0 <? fst sc)%Z eqn:Hgate; [|discriminate].
  intros [= ->].
  destruct Hbest as [Heq|(c & Hc & Heq)]; [discriminate|].
  injection Heq as -> ->.
  apply Z.ltb_lt in Hgate. auto.
Qed.

(** A candidate bearing the file name of the historical path agrees with
    it on the last compared part, so its suffix length is at least 1. *)
Lemma score_same_name (src_path dir : path) :
  (1 <= fst (score (name_parts src_path) (dir ++ [name src_path])))%Z.
Proof.
  unfold score. cbn [fst].
  destruct (name_parts_last src_path) as [front ->].
  rewrite name_parts_snoc, common_suffix_len_snoc, String.eqb_refl. lia.
Qed.

(** The acceptance gate passes as soon as there is a candidate. *)
Lemma tier2_accepts (src_path : path) (candidates : list path) :
  candidates <> [] ->
  Forall (fun c => exists dir, c = dir ++ [name src_path]) candidates ->
  (0 < fst (snd (best_loop (name_parts src_path) candidates)))%Z /\
  exists b, tier2 src_path candidates = Some b /\ b ∈ candidates.
Proof.
  intros Hne Hnames. unfold tier2.
  pose proof (best_fold_inv (name_parts src_path) candidates
                (None, ((-1)%Z, (-1)%Z))) as Hinv.
  cbv zeta in Hinv. fold (best_loop (name_parts src_path) candidates) in Hinv.
  destruct (best_loop (name_parts src_path) candidates) as [best sc].
  destruct Hinv as (_ & Hall & Hbest).
  destruct candidates as [|c0 rest]; [congruence|].
  assert (Hsc : (1 <= fst sc)%Z).
  { inversion Hnames as [|? ? [dir ->] _]; subst.
    pose proof (Hall (dir ++ [name src_path]) ltac:(left)) as Hle.
    pose proof (score_same_name src_path dir) as H1.
    unfold score_le in Hle. cbn [snd] in Hle. lia. }
  cbn [snd]. split; [lia|].
  destruct Hbest as [Heq|(c & Hc & Heq)].
  - injection Heq as -> ->. cbn in Hsc. lia.
  - injection Heq as -> ->.
    destruct (Z.ltb_spec 0 (fst (score (name_parts src_path) c))); [eauto | lia].
Qed.

(** ** choose_dest *)

Lemma join_prefix (p : path) (rel : list string) : p `prefix_of` join p rel.
Proof. now exists rel. Qed.

(** [parts.index(name)] in tier 3 cannot raise: it runs under the guard
    [name in parts]. *)
Lemma str_index_defined (x : string) (l : list string) :
  str_in x l = true -> exists i, str_index x l = Some i /\ i < length l.
Proof.
  unfold str_in. induction l as [|y l IH]; cbn [existsb str_index length];
    [discriminate|].
  rewrite (String.eqb_sym x y).
  destruct (String.eqb y x); cbn [orb].
  - intros _. exists 0. split; [reflexivity | lia].
  - intros H. destruct (IH H) as (i & -> & Hi). exists (S i).
    split; [reflexivity | lia].
Qed.

Lemma tier34_join (self : DestPlacer) (src_path : path) :
  exists rel, tier34 self src_path = join (restore_to self) rel.
Proof.
  unfold tier34.
  destruct (str_in (restore_from_name self) (parts src_path)); [|eauto].
  destruct (str_index (restore_from_name self) (parts src_path)); eauto.
Qed.

(** C1 (evaluation at the failing input). The specification has tier 2
    compare the file name, then the parent directory, then the
    grandparent, and pick the candidate with the deeper matching
    directory suffix, as the docstring of [DestPlacer] does. On the
    reorganized tree the candidate [/new/proj/lib/util.py] shares the
    suffix [proj/lib/util.py] (3 segments) with the historical path and
    [/new/proj/util.py] shares only the file name, yet [choose_dest]
    returns the latter: [name_parts] lists the directory names from the
    parent upward, so after the file name [common_suffix_len] compares the
    top-level directories, scores both candidates 1, and the tie goes to
    the path with fewer segments. *)
Theorem choose_dest_misses_deeper_suffix :
  relative_to Reorganized.src (restore_from Reorganized.self) = None /\
  fst (_index_candidates Reorganized.fs Reorganized.self (name Reorganized.src))
    = [Reorganized.shallow; Reorganized.deep] /\
  spec_suffix_len Reorganized.src Reorganized.deep = 3 /\
  spec_suffix_len Reorganized.src Reorganized.shallow = 1 /\
  name_parts Reorganized.src = ["lib"; "proj"; "bak"; "util.py"] /\
  name_parts Reorganized.deep = ["lib"; "proj"; "new"; "util.py"] /\
  common_suffix_len (name_parts Reorganized.src) (name_parts Reorganized.deep) = 1 /\
  common_suffix_len (name_parts Reorganized.src) (name_parts Reorganized.shallow) = 1 /\
  fst (choose_dest Reorganized.fs Reorganized.self Reorganized.src)
    = Reorganized.shallow.
Proof. repeat split; vm_compute; reflexivity. Qed.

(** C4 as stated fails: the index is built once, at the first tier-2
    lookup, and never refreshed. After a first file [a.py] has been
    restored to [/proj2/x/a.py], a second [a.py] recorded outside the
    source root finds no candidate in the index, although a file of its
    name exists in the destination tree, and is placed by tier 3. *)
Lemma stale_index_reaches_tier3 :
  restore_one false (Some 150%Z) None Stale.start Stale.early = OK Stale.mid /\
  index_ok (placer Stale.mid) /\
  relative_to (resource_path Stale.late) (restore_from (placer Stale.mid)) = None /\
  node_at (fs_now Stale.mid) ["proj2"; "x"; "a.py"] = Some (File "first") /\
  fst (_index_candidates (fs_now Stale.mid) (placer Stale.mid) "a.py") = [] /\
  fst (choose_dest (fs_now Stale.mid) (placer Stale.mid) (resource_path Stale.late))
    = ["proj2"; "y"; "a.py"] /\
  ~ (forall fs self src_path rel content,
       index_ok self ->
       relative_to src_path (restore_from self) = None ->
       node_at fs (restore_to self ++ rel ++ [name src_path]) = Some (File content) ->
       fst (_index_candidates fs self (name src_path)) <> []).
Proof.
  assert (Hidx : _index (placer Stale.mid) = Some ∅) by (vm_compute; reflexivity).
  assert (Hok : index_ok (placer Stale.mid)).
  { unfold index_ok. rewrite Hidx. intros k l Hk.
    rewrite lookup_empty in Hk. discriminate. }
  assert (Hnone : fst (_index_candidates (fs_now Stale.mid) (placer Stale.mid) "a.py")
                  = []) by (vm_compute; reflexivity).
  split; [vm_compute; reflexivity|].
  split; [exact Hok|].
  split; [reflexivity|].
  split; [vm_compute; reflexivity|].
  split; [exact Hnone|].
  split; [vm_compute; reflexivity|].
  intros H.
  apply (H (fs_now Stale.mid) (placer Stale.mid) (resource_path Stale.late)
           ["x"] "first" Hok eq_refl); [vm_compute; reflexivity | exact Hnone].
Qed.

(** C4, amended. For a historical path outside the source root, whenever
    the index holds a candidate for its file name, the best suffix length
    is positive and [choose_dest] returns one of the candidates: tiers 3
    and 4 are not reached. A file of that name found anywhere in the
    destination tree at the moment the index is built (no index exists
    yet) is such a candidate. *)
Theorem choose_dest_tier2_always_accepts (fs : node) (self : DestPlacer)
    (src_path : path) :
  index_ok self ->
  relative_to src_path (restore_from self) = None ->
  (fst (_index_candidates fs self (name src_path)) <> [] ->
   (0 < fst (snd (best_loop (name_parts src_path)
                    (fst (_index_candidates fs self (name src_path))))))%Z /\
   fst (choose_dest fs self src_path)
     ∈ fst (_index_candidates fs self (name src_path))) /\
  (forall rel content,
     _index self = None ->
     node_at fs (restore_to self ++ rel ++ [name src_path]) = Some (File content) ->
     fst (_index_candidates fs self (name src_path)) <> []).
Proof.
  intros Hok Hrel. split.
  - intros Hne. unfold choose_dest. rewrite Hrel.
    pose proof (_index_candidates_ok fs self (name src_path) Hok) as Hc.
    destruct (_index_candidates fs self (name src_path)) as [candidates self'].
    cbn [fst] in *. destruct Hc as (Hcands & _).
    destruct (tier2_accepts src_path candidates Hne) as (Hgate & b & Hb & Hin).
    { eapply Forall_impl; [exact Hcands|]. now intros c [Hdir _]. }
    split; [exact Hgate|]. now rewrite Hb.
  - intros rel content Hnone Hfile Hnil.
    pose proof (existing_file_is_candidate fs self rel (name src_path) content
                  Hnone Hfile) as Hin.
    rewrite Hnil in Hin. inversion Hin.
Qed.

Lemma choose_dest_tier2_always_accepts_witness :
  index_ok Reorganized.self /\
  relative_to Reorganized.src (restore_from Reorganized.self) = None /\
  fst (_index_candidates Reorganized.fs Reorganized.self (name Reorganized.src)) <> [] /\
  fst (choose_dest Reorganized.fs Reorganized.self Reorganized.src)
    ∈ fst (_index_candidates Reorganized.fs Reorganized.self (name Reorganized.src)).
Proof.
  assert (H1 : index_ok Reorganized.self) by exact I.
  assert (H2 : relative_to Reorganized.src (restore_from Reorganized.self) = None)
    by reflexivity.
  assert (H3 : fst (_index_candidates Reorganized.fs Reorganized.self
                      (name Reorganized.src)) <> [])
    by (vm_compute; discriminate).
  repeat split; try assumption.
  exact (proj2 (proj1 (choose_dest_tier2_always_accepts
                         Reorganized.fs Reorganized.self Reorganized.src H1 H2)
                  H3)).
Defined.

(** C5. [choose_dest] always returns a destination, and the destination
    lies inside the destination root: it is either a candidate taken from
    the index (tier 2) or the destination root joined with a relative
    remainder (tiers 1, 3 and 4). The index invariant is kept, so this
    holds for every call of a run. *)
Theorem choose_dest_total_inside_root (fs : node) (self : DestPlacer)
    (src_path : path) :
  index_ok self ->
  exists dest self',
    choose_dest fs self src_path = (dest, self') /\
    restore_to self `prefix_of` dest /\
    (dest ∈ fst (_index_candidates fs self (name src_path)) \/
     exists rel, dest = join (restore_to self) rel) /\
    index_ok self' /\
    restore_to self' = restore_to self /\
    restore_from self' = restore_from self.
Proof.
  intros Hok. unfold choose_dest.
  destruct (relative_to src_path (restore_from self)) as [rel|].
  - exists (join (restore_to self) rel), self.
    repeat split; eauto using join_prefix.
  - pose proof (_index_candidates_ok fs self (name src_path) Hok) as Hc.
    destruct (_index_candidates fs self (name src_path)) as [candidates self'].
    cbn [fst]. destruct Hc as (Hcands & Hok' & Hto & Hfrom & Hnm).
    destruct (tier2 src_path candidates) as [b|] eqn:Ht.
    + exists b, self'. apply tier2_Some in Ht as (Hin & _).
      repeat split; auto.
      rewrite Forall_forall in Hcands. now apply (Hcands b Hin).
    + exists (tier34 self' src_path), self'.
      destruct (tier34_join self' src_path) as [rel Hrel].
      rewrite Hrel, Hto. repeat split; eauto using join_prefix.
Qed.

Lemma choose_dest_total_inside_root_witness :
  index_ok Reorganized.self /\
  exists dest self',
    choose_dest Reorganized.fs Reorganized.self Reorganized.src = (dest, self') /\
    restore_to Reorganized.self `prefix_of` dest.
Proof.
  assert (H1 : index_ok Reorganized.self) by exact I.
  split; [exact H1|].
  destruct (choose_dest_total_inside_root
              Reorganized.fs Reorganized.self Reorganized.src H1)
    as (dest & self' & Heq & Hpre & _).
  exists dest, self'. split; assumption.
Defined.

(** C9. A historical path under the source root is mapped to the
    destination root joined with its position relative to the source
    root, for every destination tree and every state of the index; the
    placer is returned as it was, its index neither built nor read. *)
Theorem choose_dest_direct_remap (fs : node) (self : DestPlacer)
    (rel : list string) :
  choose_dest fs self (restore_from self ++ rel)
    = (join (restore_to self) rel, self).
Proof.
  unfold choose_dest.
  now rewrite (proj2 (relative_to_Some (restore_from self ++ rel)
                        (restore_from self) rel) eq_refl).
Qed.

(** C10. For the source root itself tier 1 applies with the empty
    relative remainder, printed ['.'], and the join returns the destination
    root itself. *)
Theorem choose_dest_source_root (fs : node) (self : DestPlacer) :
  relative_to (restore_from self) (restore_from self) = Some [] /\
  rel_str [] = "." /\
  join (restore_to self) [] = restore_to self /\
  choose_dest fs self (restore_from self) = (restore_to self, self).
Proof.
  pose proof (relative_to_self (restore_from self)) as Hrel.
  repeat split; [exact Hrel | apply app_nil_r |].
  unfold choose_dest. rewrite Hrel. unfold join. now rewrite app_nil_r.
Qed.

(** ** Temporal selection *)

Section Selection.

Implicit Types (e : entry) (l s entries : list entry).
Implicit Types (after_ms before_ms : option Z).

Lemma in_window_spec after_ms before_ms (ts : Z) :
  in_window after_ms before_ms ts = true <->
  (forall a, after_ms = Some a -> (a <= ts)%Z) /\
  (forall b, before_ms = Some b -> (ts < b)%Z).
Proof.
  unfold in_window. rewrite andb_true_iff. split.
  - intros [Ha Hb]. split.
    + intros a ->. now apply Z.leb_le.
    + intros b ->. now apply Z.ltb_lt.
  - intros [Ha Hb]. split.
    + destruct after_ms as [a|]; [apply Z.leb_le; auto | reflexivity].
    + destruct before_ms as [b|]; [apply Z.ltb_lt; auto | reflexivity].
Qed.

Lemma ts_get_sort_key e (ts : Z) : ts_get e = Some ts -> sort_key e = Some ts.
Proof. unfold ts_get, sort_key. destruct (timestamp e); congruence. Qed.

Lemma ts_get_timestamp e (ts : Z) : ts_get e = Some ts <-> timestamp e = TsInt ts.
Proof. unfold ts_get. destruct (timestamp e); split; congruence. Qed.

Lemma key_lt_OK (x y : option Z) (lt : bool) :
  key_lt x y = OK lt ->
  exists a b, x = Some a /\ y = Some b /\ lt = (a <? b)%Z.
Proof. destruct x as [a|], y as [b|]; intros [=]; eauto. Qed.

Lemma insert_sorted_perm e l s : insert_sorted e l = OK s -> e :: l ≡ₚ s.
Proof.
  revert s. induction l as [|y l IH]; intros s; cbn [insert_sorted].
  - now intros [= <-].
  - destruct (key_lt (sort_key y) (sort_key e)) as [[|]|]; cbn [bind];
      [|now intros [= <-]|discriminate].
    destruct (insert_sorted e l) as [r|]; cbn [bind]; [|discriminate].
    intros [= <-]. rewrite Permutation_swap. now rewrite (IH r eq_refl).
Qed.

Lemma insert_sorted_sorted e l s :
  StronglySorted key_rel l -> insert_sorted e l = OK s ->
  StronglySorted key_rel s.
Proof.
  revert s. induction l as [|y l IH]; intros s Hl; cbn [insert_sorted].
  - intros [= <-]. repeat constructor.
  - destruct (key_lt (sort_key y) (sort_key e)) as [lt|] eqn:Hk;
      cbn [bind]; [|discriminate].
    apply key_lt_OK in Hk as (a & b & Hy & He & ->).
    apply StronglySorted_cons in Hl as [Hall Hl].
    destruct (Z.ltb_spec a b) as [Hlt|Hge].
    + destruct (insert_sorted e l) as [r|] eqn:Hr; cbn [bind]; [|discriminate].
      intros [= <-]. apply StronglySorted_cons. split; [|now apply IH].
      rewrite <- (insert_sorted_perm e l r Hr). constructor; [|exact Hall].
      exists a, b. repeat split; auto; lia.
    + intros [= <-]. apply StronglySorted_cons. split.
      * constructor; [exists b, a; repeat split; auto|].
        eapply Forall_impl; [exact Hall|].
        intros x (a' & c & Ha' & Hc & Hle). exists b, c.
        assert (a' = a) by congruence. subst. repeat split; auto; lia.
      * apply StronglySorted_cons. now split.
Qed.

Lemma sorted_perm entries s : sorted entries = OK s -> entries ≡ₚ s.
Proof.
  revert s. induction entries as [|e rest IH]; intros s; cbn [sorted].
  - now intros [= <-].
  - destruct (sorted rest) as [r|]; cbn [bind]; [|discriminate].
    intros H. rewrite (IH r eq_refl). now apply insert_sorted_perm.
Qed.

Lemma sorted_sorted entries s :
  sorted entries = OK s -> StronglySorted key_rel s.
Proof.
  revert s. induction entries as [|e rest IH]; intros s; cbn [sorted].
  - intros [= <-]. constructor.
  - destruct (sorted rest) as [r|]; cbn [bind]; [|discriminate].
    intros H. eapply insert_sorted_sorted; eauto.
Qed.

(** The sort succeeds when no timestamp is [null]. *)
Lemma insert_sorted_total e l :
  sort_key e <> None -> Forall (fun x => sort_key x <> None) l ->
  exists s, insert_sorted e l = OK s.
Proof.
  intros He. induction 1 as [|y l Hy Hl IH]; cbn [insert_sorted]; [eauto|].
  destruct (sort_key y) as [a|]; [|congruence].
  destruct (sort_key e) as [b|]; [|congruence].
  cbn [key_lt bind]. destruct (a <? b)%Z; [|eauto].
  destruct IH as [r ->]. cbn [bind]. eauto.
Qed.

Lemma sorted_total entries :
  Forall (fun e => timestamp e <> TsNull) entries ->
  exists s, sorted entries = OK s.
Proof.
  assert (Hkey : forall e, timestamp e <> TsNull -> sort_key e <> None).
  { intros e. unfold sort_key. destruct (timestamp e); congruence. }
  induction 1 as [|e rest He Hrest IH]; cbn [sorted]; [eauto|].
  destruct IH as [r Hr]. rewrite Hr. cbn [bind].
  apply insert_sorted_total; [now apply Hkey|].
  rewrite <- (sorted_perm rest r Hr).
  eapply Forall_impl; [exact Hrest | exact Hkey].
Qed.

Lemma sort_key_None e : sort_key e = None <-> timestamp e = TsNull.
Proof. unfold sort_key. destruct (timestamp e); split; congruence. Qed.

Lemma insert_sorted_raise e l (x : exn) :
  insert_sorted e l = Raise x -> x = TypeError.
Proof.
  induction l as [|y l IH]; cbn [insert_sorted]; [discriminate|].
  destruct (sort_key y) as [a|]; [|now intros [= <-]].
  destruct (sort_key e) as [b|]; [|now intros [= <-]].
  cbn [key_lt bind]. destruct (a <? b)%Z; [|discriminate].
  destruct (insert_sorted e l) as [r|x']; cbn [bind]; [discriminate|].
  intros [= <-]. now apply IH.
Qed.

Lemma sorted_raise entries (x : exn) : sorted entries = Raise x -> x = TypeError.
Proof.
  induction entries as [|e rest IH]; cbn [sorted]; [discriminate|].
  destruct (sorted rest) as [r|x']; cbn [bind].
  - apply insert_sorted_raise.
  - intros [= <-]. now apply IH.
Qed.

(** A successful sort saw no [null] timestamp, unless there was nothing
    to compare. *)
Lemma sorted_OK_inv entries s :
  sorted entries = OK s ->
  length entries <= 1 \/ Forall (fun e => timestamp e <> TsNull) entries.
Proof.
  revert s. induction entries as [|e rest IH]; intros s; cbn [sorted].
  - intros _. left. cbn. lia.
  - destruct (sorted rest) as [r|] eqn:Hr; cbn [bind]; [|discriminate].
    intros Hins.
    destruct rest as [|e1 rest']; [left; cbn; lia|]. right.
    pose proof (sorted_perm _ _ Hr) as Hperm.
    destruct r as [|y r'].
    { apply Permutation_length in Hperm. discriminate. }
    cbn [insert_sorted] in Hins.
    destruct (key_lt (sort_key y) (sort_key e)) as [lt|] eqn:Hk;
      cbn [bind] in Hins; [|discriminate].
    apply key_lt_OK in Hk as (a & b & Hy & He & _).
    constructor.
    { intros Hnull. apply sort_key_None in Hnull. congruence. }
    destruct (IH (y :: r') eq_refl) as [Hlen|Hall]; [|exact Hall].
    destruct rest' as [|? ?]; [|cbn in Hlen; lia].
    cbn in Hr. injection Hr as <- <-.
    constructor; [|constructor].
    intros Hnull. apply sort_key_None in Hnull. congruence.
Qed.

Lemma null_timestamp_cases entries :
  Forall (fun e => timestamp e <> TsNull) entries \/
  Exists (fun e => timestamp e = TsNull) entries.
Proof.
  induction entries as [|e rest [IH|IH]].
  - left. constructor.
  - destruct (timestamp e) eqn:E.
    + left. constructor; [congruence | exact IH].
    + right. now left.
    + left. constructor; [congruence | exact IH].
  - right. now right.
Qed.

(** The sort raises exactly when a [null] timestamp meets another
    entry. *)
Lemma sorted_raises_iff entries :
  sorted entries = Raise TypeError <->
  2 <= length entries /\ Exists (fun e => timestamp e = TsNull) entries.
Proof.
  split.
  - intros Hraise. split.
    + destruct entries as [|e [|e' rest]]; [discriminate| |cbn; lia].
      discriminate.
    + destruct (null_timestamp_cases entries) as [Hall|Hex]; [|exact Hex].
      destruct (sorted_total entries Hall) as [s Hs]. congruence.
  - intros [Hlen Hex]. destruct (sorted entries) as [s|x] eqn:Hs.
    + exfalso. destruct (sorted_OK_inv _ _ Hs) as [Hle|Hall]; [lia|].
      rewrite Forall_forall in Hall. apply Exists_exists in Hex as (e & Hin & He).
      exact (Hall e Hin He).
    + now rewrite (sorted_raise _ _ Hs).
Qed.

End Selection.

Section SelectionLoop.

Implicit Types (e : entry) (es l s entries : list entry).
Implicit Types (after_ms before_ms : option Z).

Lemma pick_None after_ms before_ms es :
  pick after_ms before_ms es = None <->
  Forall (fun e => qualifies after_ms before_ms e = false) es.
Proof.
  unfold qualifies. induction es as [|e es IH]; cbn [pick].
  - split; [constructor | reflexivity].
  - rewrite Forall_cons. destruct (ts_get e) as [ts|].
    + destruct (in_window after_ms before_ms ts).
      * split; [discriminate | now intros [? _]].
      * rewrite IH. tauto.
    + rewrite IH. tauto.
Qed.

(** The loop stops at the first entry that qualifies. *)
Lemma pick_Some after_ms before_ms es e :
  pick after_ms before_ms es = Some e ->
  exists l1 l2,
    es = l1 ++ e :: l2 /\
    Forall (fun x => qualifies after_ms before_ms x = false) l1 /\
    qualifies after_ms before_ms e = true.
Proof.
  induction es as [|x es IH]; cbn [pick]; [discriminate|].
  destruct (qualifies after_ms before_ms x) eqn:Hq.
  - unfold qualifies in Hq. destruct (ts_get x) as [ts|] eqn:Ets; [|discriminate].
    rewrite Hq. intros [= <-]. exists [], es.
    repeat split; [constructor|].
    unfold qualifies. now rewrite Ets.
  - assert (Hskip : match ts_get x with
                    | Some ts => if in_window after_ms before_ms ts
                                 then Some x else pick after_ms before_ms es
                    | None => pick after_ms before_ms es
                    end = pick after_ms before_ms es).
    { unfold qualifies in Hq. destruct (ts_get x); [now rewrite Hq | reflexivity]. }
    rewrite Hskip. intros H. destruct (IH H) as (l1 & l2 & -> & Hl1 & He).
    exists (x :: l1), l2. repeat split; [constructor|]; assumption.
Qed.

Lemma qualifies_ts after_ms before_ms e :
  qualifies after_ms before_ms e = true ->
  exists ts, timestamp e = TsInt ts /\ in_window after_ms before_ms ts = true.
Proof.
  unfold qualifies. destruct (ts_get e) as [ts|] eqn:E; [|discriminate].
  apply ts_get_timestamp in E. eauto.
Qed.

(** The selection is correct whenever it returns: the entry chosen
    qualifies and no qualifying entry is newer; none is chosen exactly
    when none qualifies. *)
Lemma select_correct entries after_ms before_ms (r : option entry) :
  select entries after_ms before_ms = OK r ->
  match r with
  | Some e =>
      e ∈ entries /\ qualifies after_ms before_ms e = true /\
      forall e' t' t,
        e' ∈ entries -> qualifies after_ms before_ms e' = true ->
        timestamp e' = TsInt t' -> timestamp e = TsInt t -> (t' <= t)%Z
  | None => forall e', e' ∈ entries -> qualifies after_ms before_ms e' = false
  end.
Proof.
  unfold select. destruct (sorted entries) as [s|] eqn:Hs; cbn [bind]; [|discriminate].
  intros [= <-].
  pose proof (sorted_perm _ _ Hs) as Hperm.
  pose proof (sorted_sorted _ _ Hs) as Hsorted.
  destruct (pick after_ms before_ms (reverse s)) as [e|] eqn:Hp.
  - apply pick_Some in Hp as (l1 & l2 & Hrev & Hl1 & He).
    assert (Hs' : s = reverse l2 ++ e :: reverse l1).
    { rewrite <- (reverse_involutive s), Hrev, reverse_app, reverse_cons.
      now rewrite <- app_assoc. }
    split; [|split; [exact He|]].
    + rewrite Hperm, Hs'. apply elem_of_app. right. left.
    + intros e' t' t Hin Hq Ht' Ht.
      rewrite Hperm, Hs' in Hin.
      apply elem_of_app in Hin as [Hin|Hin].
      * rewrite Hs' in Hsorted.
        assert (Hrel : key_rel e' e).
        { eapply StronglySorted_app_1_elem_of; [exact Hsorted | exact Hin | left]. }
        destruct Hrel as (a & b & Ha & Hb & Hle).
        unfold sort_key in Ha, Hb. rewrite Ht' in Ha. rewrite Ht in Hb.
        congruence.
      * apply elem_of_cons in Hin as [->|Hin]; [assert (t' = t) by congruence; lia|].
        rewrite elem_of_reverse in Hin.
        rewrite Forall_forall in Hl1. rewrite (Hl1 e' Hin) in Hq. discriminate.
  - intros e' Hin. rewrite pick_None, Forall_forall in Hp.
    apply Hp. apply elem_of_reverse. now rewrite <- Hperm.
Qed.

(** The selection returns whenever no timestamp is [null]. *)
Lemma select_total entries after_ms before_ms :
  Forall (fun e => timestamp e <> TsNull) entries ->
  exists r, select entries after_ms before_ms = OK r.
Proof.
  intros H. destruct (sorted_total entries H) as [s Hs].
  unfold select. rewrite Hs. cbn [bind]. eauto.
Qed.

Lemma StronglySorted_lookup (R : entry -> entry -> Prop) s :
  StronglySorted R s ->
  forall i j x y, i < j -> s !! i = Some x -> s !! j = Some y -> R x y.
Proof.
  induction 1 as [|a s Hs IH Hall]; intros i j x y Hij Hi Hj.
  - rewrite lookup_nil in Hi. discriminate.
  - destruct j as [|j]; [lia|]. cbn in Hj.
    destruct i as [|i].
    + injection Hi as <-. rewrite Forall_forall in Hall.
      apply Hall. eapply list_elem_of_lookup_2. exact Hj.
    + cbn in Hi. apply (IH i j); [lia | assumption..].
Qed.

End SelectionLoop.

(** C2 (evaluation at the failing input). With a [null] timestamp next to
    a qualifying entry the selection does not return the qualifying
    entry: sorting compares [None] with an integer and raises TypeError,
    although the loop that follows would have skipped the [null] entry.
    Without [null] timestamps the specified behaviour holds ([select_total],
    [select_correct]). *)
Theorem select_raises_on_null_timestamp :
  qualifies (Some 0%Z) None Snapshots.at5 = true /\
  select [Snapshots.nulled; Snapshots.at5] (Some 0%Z) None = Raise TypeError /\
  pick (Some 0%Z) None (reverse [Snapshots.nulled; Snapshots.at5])
    = Some Snapshots.at5.
Proof. repeat split; reflexivity. Qed.

(** C6. The upper bound is exclusive: an entry saved exactly at
    [before_ms] is never selected. The lower bound is inclusive: an entry
    saved exactly at [after_ms] is selected in some run. *)
Theorem window_upper_exclusive_lower_inclusive :
  (forall entries after_ms (b : Z) e,
     select entries after_ms (Some b) = OK (Some e) ->
     timestamp e <> TsInt b) /\
  (exists entries (a : Z) before_ms e,
     select entries (Some a) before_ms = OK (Some e) /\
     timestamp e = TsInt a).
Proof.
  split.
  - intros entries after_ms b e Hsel Hts.
    apply select_correct in Hsel as (_ & Hq & _).
    apply qualifies_ts in Hq as (ts & Hts' & Hw).
    assert (ts = b) by congruence. subst ts.
    apply in_window_spec in Hw as [_ Hb].
    specialize (Hb b eq_refl). lia.
  - exists [Snapshots.at5], 5%Z, (Some 6%Z), Snapshots.at5.
    split; reflexivity.
Qed.

Lemma window_upper_exclusive_lower_inclusive_witness :
  select [Snapshots.at5] (Some 5%Z) (Some 6%Z) = OK (Some Snapshots.at5) /\
  timestamp Snapshots.at5 <> TsInt 6.
Proof.
  assert (H : select [Snapshots.at5] (Some 5%Z) (Some 6%Z) = OK (Some Snapshots.at5))
    by reflexivity.
  split; [exact H|].
  exact (proj1 window_upper_exclusive_lower_inclusive
           [Snapshots.at5] (Some 5%Z) 6%Z Snapshots.at5 H).
Defined.

(** C7 as stated fails: an entry without a timestamp does not sort after
    the entries that have one. Sorting the entry saved at 5 ms followed by
    the untimed one puts the untimed entry first. *)
Lemma missing_timestamp_not_sorted_last :
  sorted [Snapshots.at5; Snapshots.untimed]
    = OK [Snapshots.untimed; Snapshots.at5] /\
  ~ (forall entries s, sorted entries = OK s ->
     forall i j ea ep (z : Z),
       s !! i = Some ea -> s !! j = Some ep ->
       timestamp ea = TsAbsent -> timestamp ep = TsInt z -> j < i).
Proof.
  split; [reflexivity|].
  intros H.
  specialize (H [Snapshots.at5; Snapshots.untimed]
                [Snapshots.untimed; Snapshots.at5] eq_refl
                0 1 Snapshots.untimed Snapshots.at5 5%Z
                eq_refl eq_refl eq_refl eq_refl).
  lia.
Qed.

(** C7, amended. In the ascending sort an entry without a timestamp is
    keyed 0: it comes before every entry whose timestamp is greater than
    0 and after every entry whose timestamp is less than 0. An entry
    without a timestamp is never the selected entry. *)
Theorem missing_timestamp_sorts_as_zero (entries s : list entry) :
  sorted entries = OK s ->
  (forall i j ea ep (z : Z),
     s !! i = Some ea -> s !! j = Some ep ->
     timestamp ea = TsAbsent -> timestamp ep = TsInt z ->
     ((0 < z)%Z -> i < j) /\ ((z < 0)%Z -> j < i)) /\
  (forall after_ms before_ms e,
     select entries after_ms before_ms = OK (Some e) ->
     exists z, timestamp e = TsInt z).
Proof.
  intros Hs. split.
  - intros i j ea ep z Hi Hj Ha Hp.
    pose proof (sorted_sorted _ _ Hs) as Hsorted.
    assert (Hne : i <> j) by (intros ->; congruence).
    split; intros Hz.
    + destruct (Nat.lt_ge_cases i j) as [|Hge]; [assumption|].
      assert (Hji : j < i) by lia.
      destruct (StronglySorted_lookup _ _ Hsorted j i ep ea Hji Hj Hi)
        as (a & b & Hka & Hkb & Hle).
      unfold sort_key in Hka, Hkb. rewrite Hp in Hka. rewrite Ha in Hkb.
      injection Hka as <-. injection Hkb as <-. lia.
    + destruct (Nat.lt_ge_cases j i) as [|Hge]; [assumption|].
      assert (Hij : i < j) by lia.
      destruct (StronglySorted_lookup _ _ Hsorted i j ea ep Hij Hi Hj)
        as (a & b & Hka & Hkb & Hle).
      unfold sort_key in Hka, Hkb. rewrite Ha in Hka. rewrite Hp in Hkb.
      injection Hka as <-. injection Hkb as <-. lia.
  - intros after_ms before_ms e Hsel.
    apply select_correct in Hsel as (_ & Hq & _).
    apply qualifies_ts in Hq as (ts & Hts & _). eauto.
Qed.

Lemma missing_timestamp_sorts_as_zero_witness :
  sorted [Snapshots.at5; Snapshots.untimed]
    = OK [Snapshots.untimed; Snapshots.at5] /\
  0 < 1.
Proof.
  assert (H : sorted [Snapshots.at5; Snapshots.untimed]
              = OK [Snapshots.untimed; Snapshots.at5]) by reflexivity.
  split; [exact H|].
  exact (proj1 (proj1 (missing_timestamp_sorts_as_zero _ _ H)
                  0 1 Snapshots.untimed Snapshots.at5 5%Z
                  eq_refl eq_refl eq_refl eq_refl)
           ltac:(lia)).
Defined.

(** ** The record loader *)










(** ** Dry runs *)

(** C3 (evaluation at failing inputs). A dry run is not free of
    file-system changes: the parent directory of every destination is
    created before the dry-run test is reached, and the destination root is
    created at start-up. Nor are the reported destinations those of a
    normal run: the index is built on the first tier-2 lookup, and by then
    a normal run has written files that a dry run has not. *)
Theorem dry_run_creates_directories :
  (node_at DryRun.fs ["proj2"; "x"] = None /\
   exists st,
     DryRun.run true [DryRun.first] = OK st /\
     stdout st = [("WOULD_RESTORE", ["proj"; "x"; "a.py"], ["proj2"; "x"; "a.py"])] /\
     node_at (fs_now st) ["proj2"; "x"] = Some (Dir []) /\
     fs_now st <> DryRun.fs) /\
  (exists st,
     main_restore true ["proj"] ["proj2"] (Some 150%Z) None (Dir []) [] = OK st /\
     fs_now st = Dir [("proj2", Dir [])]) /\
  (DryRun.reported (DryRun.run true [DryRun.first; DryRun.second])
     = [(["proj"; "x"; "a.py"], ["proj2"; "x"; "a.py"]);
        (["other"; "proj"; "y"; "a.py"], ["proj2"; "y"; "a.py"])] /\
   DryRun.reported (DryRun.run false [DryRun.first; DryRun.second])
     = [(["proj"; "x"; "a.py"], ["proj2"; "x"; "a.py"]);
        (["other"; "proj"; "y"; "a.py"], ["proj2"; "x"; "a.py"])]).
Proof.
  split; [split; [reflexivity|]|split].
  - eexists. split; [vm_compute; reflexivity|].
    split; [reflexivity|]. split; [reflexivity | discriminate].
  - eexists. split; reflexivity.
  - split; vm_compute; reflexivity.
Qed.

(** * Further properties of the code *)

(** ** common_suffix_len *)

Lemma common_prefix_len_le (a b : list string) :
  common_prefix_len a b <= length a /\ common_prefix_len a b <= length b.
Proof.
  revert b. induction a as [|x a IH]; intros [|y b]; cbn; try lia.
  destruct (String.eqb x y); cbn; [specialize (IH b)|]; lia.
Qed.

Lemma common_prefix_len_take (a b : list string) :
  take (common_prefix_len a b) a = take (common_prefix_len a b) b.
Proof.
  revert b. induction a as [|x a IH]; intros [|y b]; cbn; try reflexivity.
  destruct (String.eqb_spec x y) as [->|Hne]; cbn; [|reflexivity].
  now rewrite IH.
Qed.

Lemma common_prefix_len_stop (a b : list string) (x y : string) :
  a !! common_prefix_len a b = Some x ->
  b !! common_prefix_len a b = Some y ->
  x <> y.
Proof.
  revert b. induction a as [|x' a IH]; intros [|y' b]; cbn; try discriminate.
  destruct (String.eqb_spec x' y') as [->|Hne]; cbn.
  - apply IH.
  - congruence.
Qed.

Lemma common_prefix_len_sym (a b : list string) :
  common_prefix_len a b = common_prefix_len b a.
Proof.
  revert b. induction a as [|x a IH]; intros [|y b]; cbn; try reflexivity.
  rewrite (String.eqb_sym y x). destruct (String.eqb x y); [now rewrite IH | reflexivity].
Qed.

Lemma common_prefix_len_refl (a : list string) :
  common_prefix_len a a = length a.
Proof.
  induction a as [|x a IH]; cbn; [reflexivity|].
  now rewrite String.eqb_refl, IH.
Qed.

(** X1. [common_suffix_len] returns the length of the longest common
    suffix: it is bounded by both lengths, the two lists agree on their
    last [n] elements, and the elements just before that suffix, when both
    exist, differ. *)
Theorem common_suffix_len_longest (a b : list string) :
  let n := common_suffix_len a b in
  n <= length a /\ n <= length b /\
  drop (length a - n) a = drop (length b - n) b /\
  forall x y,
    n < length a -> n < length b ->
    a !! (length a - S n) = Some x -> b !! (length b - S n) = Some y ->
    x <> y.
Proof.
  cbv zeta. rewrite common_suffix_len_spec.
  pose proof (common_prefix_len_le (reverse a) (reverse b)) as [Hla Hlb].
  rewrite length_reverse in Hla, Hlb.
  split; [exact Hla|]. split; [exact Hlb|]. split.
  - pose proof (common_prefix_len_take (reverse a) (reverse b)) as Ht.
    rewrite !take_reverse in Ht. now apply (inj reverse) in Ht.
  - intros x y Ha Hb Hx Hy.
    apply (common_prefix_len_stop (reverse a) (reverse b)).
    + rewrite reverse_lookup by exact Ha. exact Hx.
    + rewrite reverse_lookup by exact Hb. exact Hy.
Qed.

(** X2. The order of the two arguments does not matter, and a list
    shares its whole length with itself. *)
Theorem common_suffix_len_sym_refl (a b : list string) :
  common_suffix_len a b = common_suffix_len b a /\
  common_suffix_len a a = length a.
Proof.
  rewrite !common_suffix_len_spec. split.
  - apply common_prefix_len_sym.
  - now rewrite common_prefix_len_refl, length_reverse.
Qed.

(** ** Tier 2 *)

(** X3. What tier 2 ranks by. For a historical file and a candidate of
    the same name, the first component of the score is one more than the
    number of leading directories the two paths share, counted from the
    root, and the second is minus the number of segments of the
    candidate. *)
Theorem score_counts_leading_dirs (src_dirs cand_dirs : path) (f : string) :
  score (name_parts (src_dirs ++ [f])) (cand_dirs ++ [f]) =
  (Z.of_nat (S (common_prefix_len src_dirs cand_dirs)),
   (- Z.of_nat (S (length cand_dirs)))%Z).
Proof.
  unfold score. rewrite common_suffix_len_name_parts.
  rewrite length_name_parts, length_app. cbn [length].
  do 2 f_equal. lia.
Qed.

Lemma score_gt_trans (a b c : Z * Z) :
  score_gt a b = true -> score_gt b c = true -> score_gt a c = true.
Proof.
  unfold score_gt.
  rewrite !orb_true_iff, !andb_true_iff, !Z.ltb_lt, !Z.eqb_eq. lia.
Qed.

Lemma score_gt_le_trans (a b c : Z * Z) :
  score_gt a b = true -> score_gt c b = false -> score_gt a c = true.
Proof.
  intros Hab Hcb. apply score_gt_false in Hcb. revert Hab Hcb.
  unfold score_gt, score_le.
  rewrite !orb_true_iff, !andb_true_iff, !Z.ltb_lt, !Z.eqb_eq. lia.
Qed.

Lemma score_le_gt_false (a b c : Z * Z) :
  score_gt a b = false -> score_gt c b = true -> score_gt a c = false.
Proof.
  intros Hab Hcb. apply score_gt_false. apply score_gt_false in Hab.
  apply score_gt_true in Hcb. eauto.
Qed.

(** The candidate loop keeps the first candidate that beats the start
    score and every candidate before it, and that no later candidate
    beats. *)
Lemma best_fold_first (src_parts : list string) (candidates : list path) :
  forall st,
    let st' := foldl (best_step src_parts) st candidates in
    (st' = st /\
     forall c, c ∈ candidates -> score_gt (score src_parts c) (snd st) = false) \/
    (exists l1 b l2,
       candidates = l1 ++ b :: l2 /\
       st' = (Some b, score src_parts b) /\
       score_gt (score src_parts b) (snd st) = true /\
       (forall c, c ∈ l1 -> score_gt (score src_parts b) (score src_parts c) = true) /\
       (forall c, c ∈ l2 -> score_gt (score src_parts c) (score src_parts b) = false)).
Proof.
  induction candidates as [|cand rest IH]; intros st; cbn [foldl].
  - left. split; [reflexivity|]. intros c Hc. inversion Hc.
  - remember (best_step src_parts st cand) as st1 eqn:Hst1.
    unfold best_step in Hst1. cbv zeta in Hst1.
    pose proof (IH st1) as IH'. cbv zeta in IH'.
    destruct (score_gt (score src_parts cand) (snd st)) eqn:Hgt; subst st1.
    + right. cbn [snd] in IH'.
      destruct IH' as [[Heq Hall]|(l1 & b & l2 & -> & Heq & Hb & Hl1 & Hl2)].
      * exists [], cand, rest.
        split; [reflexivity|]. split; [exact Heq|]. split; [exact Hgt|].
        split; [|exact Hall]. intros c Hc. inversion Hc.
      * exists (cand :: l1), b, l2.
        split; [reflexivity|]. split; [exact Heq|].
        split; [eapply score_gt_trans; eauto|]. split; [|exact Hl2].
        intros c Hc. apply elem_of_cons in Hc as [->|Hc]; auto.
    + destruct IH' as [[Heq Hall]|(l1 & b & l2 & -> & Heq & Hb & Hl1 & Hl2)].
      * left. split; [exact Heq|].
        intros c Hc. apply elem_of_cons in Hc as [->|Hc]; auto.
      * right. exists (cand :: l1), b, l2.
        split; [reflexivity|]. split; [exact Heq|]. split; [exact Hb|].
        split; [|exact Hl2].
        intros c Hc. apply elem_of_cons in Hc as [->|Hc]; auto.
        eapply score_gt_le_trans; eauto.
Qed.

(** X4. Tier 2 returns the first candidate, in index order, whose score
    [(suffix_len, -segments)] is the greatest: every earlier candidate
    scores strictly less, no later candidate scores more, and the suffix
    length of the one returned is positive. *)
Theorem tier2_returns_first_best (src_path : path) (candidates : list path)
    (b : path) :
  tier2 src_path candidates = Some b ->
  exists l1 l2,
    candidates = l1 ++ b :: l2 /\
    (0 < fst (score (name_parts src_path) b))%Z /\
    (forall c, c ∈ l1 ->
       score_gt (score (name_parts src_path) b) (score (name_parts src_path) c) = true) /\
    (forall c, c ∈ l2 ->
       score_gt (score (name_parts src_path) c) (score (name_parts src_path) b) = false).
Proof.
  unfold tier2. destruct candidates as [|c0 rest]; [discriminate|].
  pose proof (best_fold_first (name_parts src_path) (c0 :: rest)
                (None, ((-1)%Z, (-1)%Z))) as Hinv.
  cbv zeta in Hinv. fold (best_loop (name_parts src_path) (c0 :: rest)) in Hinv.
  destruct (best_loop (name_parts src_path) (c0 :: rest)) as [best sc].
  destruct best as [b'|]; [|discriminate].
  destruct (0 <? fst sc)%Z eqn:Hgate; [|discriminate].
  intros [= ->].
  destruct Hinv as [[Heq _]|(l1 & b' & l2 & Hsplit & Heq & _ & Hl1 & Hl2)];
    [discriminate|].
  injection Heq as -> ->. apply Z.ltb_lt in Hgate.
  exists l1, l2. auto.
Qed.

Lemma tier2_returns_first_best_witness :
  tier2 Reorganized.src [Reorganized.shallow; Reorganized.deep]
    = Some Reorganized.shallow /\
  exists l1 l2,
    [Reorganized.shallow; Reorganized.deep] = l1 ++ Reorganized.shallow :: l2.
Proof.
  assert (H : tier2 Reorganized.src [Reorganized.shallow; Reorganized.deep]
              = Some Reorganized.shallow) by (vm_compute; reflexivity).
  split; [exact H|].
  destruct (tier2_returns_first_best _ _ _ H) as (l1 & l2 & Hsplit & _).
  exists l1, l2. exact Hsplit.
Defined.

(** ** Tiers 3 and 4 *)

Lemma str_in_elem (x : string) (l : list string) : str_in x l = true <-> x ∈ l.
Proof.
  unfold str_in. rewrite existsb_exists. split.
  - intros (y & Hy & Heq). apply String.eqb_eq in Heq as ->.
    now apply list_elem_of_In.
  - intros H. exists x. split; [now apply list_elem_of_In | apply String.eqb_refl].
Qed.

Lemma str_index_first (x : string) (pre rest : list string) :
  x ∉ pre -> str_index x (pre ++ x :: rest) = Some (length pre).
Proof.
  induction pre as [|y pre IH]; intros Hnot; cbn [app str_index length].
  - now rewrite String.eqb_refl.
  - apply not_elem_of_cons in Hnot as [Hne Hnot].
    destruct (String.eqb_spec y x) as [->|_]; [congruence|].
    now rewrite IH.
Qed.

Lemma _index_candidates_fields (fs : node) (self : DestPlacer) (filename : string) :
  restore_to (snd (_index_candidates fs self filename)) = restore_to self /\
  restore_from (snd (_index_candidates fs self filename)) = restore_from self /\
  restore_from_name (snd (_index_candidates fs self filename)) = restore_from_name self.
Proof. unfold _index_candidates. destruct (_index self); cbn; auto. Qed.

Lemma choose_dest_falls_to_tier34 (fs : node) (self : DestPlacer) (src_path : path) :
  relative_to src_path (restore_from self) = None ->
  fst (_index_candidates fs self (name src_path)) = [] ->
  fst (choose_dest fs self src_path) =
  tier34 (snd (_index_candidates fs self (name src_path))) src_path.
Proof.
  intros Hrel Hnone. unfold choose_dest. rewrite Hrel.
  destruct (_index_candidates fs self (name src_path)) as [candidates self'].
  cbn [fst snd] in *. subst candidates. reflexivity.
Qed.

(** X5. Anchor-folder reconstruction. A historical path outside the
    source root, with no indexed file of its name, whose first segment
    equal to the source root's folder name is followed by [rest], is
    placed at the destination root joined with [rest]; when nothing
    follows the anchor it is placed at the destination root under its own
    name. *)
Theorem choose_dest_anchor_rebuild (fs : node) (self : DestPlacer)
    (pre rest : list string) :
  relative_to (pre ++ restore_from_name self :: rest) (restore_from self) = None ->
  fst (_index_candidates fs self (name (pre ++ restore_from_name self :: rest))) = [] ->
  restore_from_name self ∉ pre ->
  restore_from_name self <> "/" ->
  fst (choose_dest fs self (pre ++ restore_from_name self :: rest)) =
  join (restore_to self)
       (match rest with
        | [] => of_str (restore_from_name self)
        | _ :: _ => rest
        end).
Proof.
  intros Hrel Hnone Hpre Hslash.
  rewrite (choose_dest_falls_to_tier34 _ _ _ Hrel Hnone).
  destruct (_index_candidates_fields fs self
              (name (pre ++ restore_from_name self :: rest))) as (Hto & _ & Hnm).
  unfold tier34. rewrite Hto, Hnm. unfold parts.
  assert (Hin : str_in (restore_from_name self)
                  ("/" :: pre ++ restore_from_name self :: rest) = true).
  { apply str_in_elem. right. apply elem_of_app. right. left. }
  rewrite Hin.
  assert (Hidx : str_index (restore_from_name self)
                   ("/" :: pre ++ restore_from_name self :: rest)
                 = Some (S (length pre))).
  { apply (str_index_first _ ("/" :: pre) rest).
    apply not_elem_of_cons. split; [exact Hslash | exact Hpre]. }
  rewrite Hidx. cbn [length]. rewrite length_app.
  destruct rest as [|r rest]; cbn [length].
  - destruct (Nat.ltb_spec (S (length pre) + 1) (S (length pre + 1))); [lia|].
    now rewrite name_snoc.
  - destruct (Nat.ltb_spec (S (length pre) + 1)
                (S (length pre + S (S (length rest))))); [|lia].
    f_equal. rewrite Nat.add_1_r. cbn [skipn].
    change (restore_from_name self :: r :: rest)
      with ([restore_from_name self] ++ r :: rest).
    rewrite app_assoc.
    rewrite (drop_app_length' (pre ++ [restore_from_name self])); [reflexivity|].
    rewrite length_app. cbn [length]. lia.
Qed.

Lemma choose_dest_anchor_rebuild_witness :
  relative_to (["bak"] ++ restore_from_name Reorganized.self :: ["lib"; "zz.py"])
    (restore_from Reorganized.self) = None /\
  fst (choose_dest Reorganized.fs Reorganized.self
         (["bak"] ++ restore_from_name Reorganized.self :: ["lib"; "zz.py"]))
    = ["new"; "proj"; "lib"; "zz.py"].
Proof.
  assert (H1 : relative_to
                 (["bak"] ++ restore_from_name Reorganized.self :: ["lib"; "zz.py"])
                 (restore_from Reorganized.self) = None) by reflexivity.
  assert (H2 : fst (_index_candidates Reorganized.fs Reorganized.self
                      (name (["bak"] ++ restore_from_name Reorganized.self
                               :: ["lib"; "zz.py"]))) = [])
    by (vm_compute; reflexivity).
  assert (H3 : restore_from_name Reorganized.self ∉ ["bak"]).
  { apply not_elem_of_cons. split; [discriminate | apply not_elem_of_nil]. }
  assert (H4 : restore_from_name Reorganized.self <> "/") by discriminate.
  split; [exact H1|].
  exact (choose_dest_anchor_rebuild Reorganized.fs Reorganized.self
           ["bak"] ["lib"; "zz.py"] H1 H2 H3 H4).
Defined.

(** X6. Flat fallback. A historical path outside the source root, with
    no indexed file of its name and no segment equal to the source root's
    folder name, is placed directly under the destination root with its
    file name alone. *)
Theorem choose_dest_flat_fallback (fs : node) (self : DestPlacer) (src_path : path) :
  relative_to src_path (restore_from self) = None ->
  fst (_index_candidates fs self (name src_path)) = [] ->
  restore_from_name self ∉ src_path ->
  restore_from_name self <> "/" ->
  fst (choose_dest fs self src_path) =
  join (restore_to self) (of_str (name src_path)).
Proof.
  intros Hrel Hnone Hnot Hslash.
  rewrite (choose_dest_falls_to_tier34 _ _ _ Hrel Hnone).
  destruct (_index_candidates_fields fs self (name src_path)) as (Hto & _ & Hnm).
  unfold tier34. rewrite Hto, Hnm.
  destruct (str_in (restore_from_name self) (parts src_path)) eqn:Hin;
    [|reflexivity].
  exfalso. apply str_in_elem in Hin. unfold parts in Hin.
  apply elem_of_cons in Hin as [Heq|Hin]; [now apply Hslash | now apply Hnot].
Qed.

Lemma choose_dest_flat_fallback_witness :
  relative_to ["bak"; "lib"; "zz.py"] (restore_from Reorganized.self) = None /\
  fst (choose_dest Reorganized.fs Reorganized.self ["bak"; "lib"; "zz.py"])
    = ["new"; "proj"; "zz.py"].
Proof.
  assert (H1 : relative_to ["bak"; "lib"; "zz.py"] (restore_from Reorganized.self)
               = None) by reflexivity.
  assert (H2 : fst (_index_candidates Reorganized.fs Reorganized.self
                      (name ["bak"; "lib"; "zz.py"])) = [])
    by (vm_compute; reflexivity).
  assert (H3 : restore_from_name Reorganized.self ∉ ["bak"; "lib"; "zz.py"]).
  { repeat (apply not_elem_of_cons; split; [discriminate|]). apply not_elem_of_nil. }
  assert (H4 : restore_from_name Reorganized.self <> "/") by discriminate.
  split; [exact H1|].
  exact (choose_dest_flat_fallback Reorganized.fs Reorganized.self
           ["bak"; "lib"; "zz.py"] H1 H2 H3 H4).
Defined.

(** ** The destination index *)

(** X7. The index is built once. After a first lookup on one file
    system, a lookup on any other file system answers from the index
    built on the first: what was written or removed in between is not
    seen. *)
Theorem index_built_once (fs1 fs2 : node) (self : DestPlacer) (k1 k2 : string) :
  _index_candidates fs2 (snd (_index_candidates fs1 self k1)) k2 =
  (fst (_index_candidates fs1 self k2), snd (_index_candidates fs1 self k1)).
Proof.
  unfold _index_candidates. destruct (_index self) as [idx|] eqn:E; cbn.
  - now rewrite !E.
  - reflexivity.
Qed.

Lemma wf_node_Dir (ch : list (string * node)) :
  wf_node (Dir ch) <-> NoDup (map fst ch) /\ Forall (fun e => wf_node (snd e)) ch.
Proof.
  cbn [wf_node]. apply and_iff_compat_l.
  induction ch as [|[nm c] ch IH]; [split; constructor|].
  rewrite Forall_cons, IH. reflexivity.
Qed.

Lemma lookup_child_NoDup (nm : string) (c : node) (ch : list (string * node)) :
  NoDup (map fst ch) -> (nm, c) ∈ ch -> lookup_child nm ch = Some c.
Proof.
  induction ch as [|[k x] ch IH]; intros Hnd Hin; [inversion Hin|].
  cbn [map fst] in Hnd. apply NoDup_cons in Hnd as [Hk Hnd].
  cbn [lookup_child]. apply elem_of_cons in Hin as [[= -> ->]|Hin].
  - now rewrite String.eqb_refl.
  - destruct (String.eqb_spec k nm) as [->|_]; [|now apply IH].
    exfalso. apply Hk. apply list_elem_of_In, in_map_iff.
    exists (nm, c). split; [reflexivity | now apply list_elem_of_In].
Qed.

Lemma file_names_elem (f : string) (ch : list (string * node)) :
  f ∈ file_names ch -> exists content, (f, File content) ∈ ch.
Proof.
  unfold file_names. intros H. apply list_elem_of_In, in_flat_map in H.
  destruct H as ([k [content|sub]] & Hin & Hf); cbn in Hf; [|contradiction].
  destruct Hf as [->|[]]. exists content. now apply list_elem_of_In.
Qed.

Lemma os_walk_sound (n : node) :
  forall (top root : path) (files : list string) (f : string),
    wf_node n ->
    (root, files) ∈ os_walk top n -> f ∈ files ->
    exists rel content,
      root = top ++ rel /\ node_at n (rel ++ [f]) = Some (File content).
Proof.
  induction n as [content|ch IH] using node_rect_children;
    intros top root files f Hwf Hin Hf; [inversion Hin|].
  apply wf_node_Dir in Hwf as [Hnd Hwf].
  rewrite os_walk_Dir in Hin. apply elem_of_cons in Hin as [[= -> ->]|Hin].
  - apply file_names_elem in Hf as [content Hc].
    exists [], content. rewrite app_nil_r. split; [reflexivity|].
    cbn [app node_at]. now rewrite (lookup_child_NoDup f (File content) ch).
  - apply list_elem_of_In, in_flat_map in Hin as ([nm c] & Hc & Hin).
    apply list_elem_of_In in Hc, Hin. cbn [fst snd] in Hin.
    rewrite Forall_forall in IH, Hwf.
    destruct (IH (nm, c) Hc (top ++ [nm]) root files f (Hwf (nm, c) Hc) Hin Hf)
      as (rel & content & -> & Hnode).
    exists (nm :: rel), content. split; [now rewrite <- app_assoc|].
    cbn [app node_at]. now rewrite (lookup_child_NoDup nm c ch).
Qed.

Section IndexContents.

Variable P : string -> path -> Prop.

Lemma idx_all_append (fn : string) (p : path) (idx : gmap string (list path)) :
  idx_all_of P idx -> P fn p -> idx_all_of P (idx_append fn p idx).
Proof.
  intros Hidx Hp k q. unfold idx_append.
  destruct (decide (fn = k)) as [->|Hne].
  - rewrite lookup_insert_eq. cbn [default]. intros Hq.
    apply elem_of_app in Hq as [Hq|Hq]; [now apply Hidx|].
    apply list_elem_of_singleton in Hq as ->. exact Hp.
  - rewrite lookup_insert_ne by exact Hne. apply Hidx.
Qed.

Lemma idx_all_files (root : path) (files : list string) :
  (forall fn, fn ∈ files -> P fn (root ++ [fn])) ->
  forall idx, idx_all_of P idx ->
  idx_all_of P (foldl (fun idx fn => idx_append fn (root ++ [fn]) idx) idx files).
Proof.
  induction files as [|fn files IH]; intros HP idx Hidx; [exact Hidx|].
  cbn [foldl]. apply IH.
  - intros fn' Hfn'. apply HP. now right.
  - apply idx_all_append; [exact Hidx|]. apply HP. left.
Qed.

Lemma idx_all_walk (w : list (path * list string)) :
  (forall root files fn, (root, files) ∈ w -> fn ∈ files -> P fn (root ++ [fn])) ->
  idx_all_of P (index_of_walk w).
Proof.
  unfold index_of_walk.
  assert (Hempty : idx_all_of P ∅).
  { intros k p. rewrite lookup_empty. cbn. intros H. inversion H. }
  revert Hempty. generalize (∅ : gmap string (list path)).
  induction w as [|[root files] w IH]; intros idx Hidx HP; [exact Hidx|].
  cbn [foldl fst snd]. apply IH.
  - apply idx_all_files; [|exact Hidx].
    intros fn Hfn. apply (HP root files); [left | exact Hfn].
  - intros root' files' fn Hin. apply HP. now right.
Qed.

End IndexContents.

Lemma wf_node_child (ch : list (string * node)) (s : string) (c : node) :
  wf_node (Dir ch) -> lookup_child s ch = Some c -> wf_node c.
Proof.
  intros Hwf Hc. apply wf_node_Dir in Hwf as [_ Hall].
  rewrite Forall_forall in Hall.
  exact (Hall (s, c) (lookup_child_elem s ch c Hc)).
Qed.

Lemma wf_node_at (p : path) :
  forall fs n, wf_node fs -> node_at fs p = Some n -> wf_node n.
Proof.
  induction p as [|s p IH]; intros fs n Hwf; cbn [node_at].
  - now intros [= <-].
  - destruct fs as [|ch]; [discriminate|].
    destruct (lookup_child s ch) as [c|] eqn:Hc; [|discriminate].
    apply IH. eapply wf_node_child; eauto.
Qed.

(** X8. On a file system whose directories list no name twice, the
    index built at the first lookup holds, for a file name, exactly the
    regular files of that name found at any depth under the destination
    root. *)
Theorem index_lists_exactly_the_files (fs : node) (self : DestPlacer)
    (f : string) (p : path) :
  _index self = None ->
  wf_node fs ->
  p ∈ fst (_index_candidates fs self f) <->
  exists rel content,
    p = restore_to self ++ rel ++ [f] /\ node_at fs p = Some (File content).
Proof.
  intros Hnone Hwf. split.
  - unfold _index_candidates. rewrite Hnone. cbn [_build_index _index fst].
    apply (idx_all_walk
             (fun k q => exists rel content,
                q = restore_to self ++ rel ++ [k] /\
                node_at fs q = Some (File content))).
    intros root files fn Hin Hfn. unfold os_walk_at in Hin.
    destruct (node_at fs (restore_to self)) as [n|] eqn:Hn; [|inversion Hin].
    destruct (os_walk_sound n (restore_to self) root files fn
                (wf_node_at _ _ _ Hwf Hn) Hin Hfn)
      as (rel & content & -> & Hnode).
    exists rel, content. rewrite <- app_assoc. split; [reflexivity|].
    now rewrite node_at_app, Hn.
  - intros (rel & content & -> & Hnode).
    now apply (existing_file_is_candidate fs self rel f content).
Qed.

Lemma index_lists_exactly_the_files_witness :
  _index Reorganized.self = None /\
  wf_node Reorganized.fs /\
  Reorganized.deep
    ∈ fst (_index_candidates Reorganized.fs Reorganized.self "util.py").
Proof.
  assert (H1 : _index Reorganized.self = None) by reflexivity.
  assert (H2 : wf_node Reorganized.fs).
  { cbn. repeat split;
      repeat (apply NoDup_cons; split;
              [intros H; repeat (apply elem_of_cons in H as [H|H]; [discriminate|]);
               inversion H|]);
      apply NoDup_nil_2. }
  split; [exact H1|]. split; [exact H2|].
  apply (proj2 (index_lists_exactly_the_files
                  Reorganized.fs Reorganized.self "util.py" Reorganized.deep H1 H2)).
  exists ["lib"], "lib". split; reflexivity.
Defined.

(** ** Temporal selection *)

(** X9. Whenever the selection returns, the entry it returns lies in the
    list, has a timestamp inside the window, and no entry inside the
    window has a greater timestamp; it returns none exactly when no entry
    has a timestamp inside the window. *)
Theorem select_returns_newest_in_window (entries : list entry)
    (after_ms before_ms : option Z) (r : option entry) :
  select entries after_ms before_ms = OK r ->
  match r with
  | Some e =>
      e ∈ entries /\
      (exists ts, timestamp e = TsInt ts /\ in_window after_ms before_ms ts = true) /\
      forall e' t' t,
        e' ∈ entries -> timestamp e' = TsInt t' ->
        in_window after_ms before_ms t' = true ->
        timestamp e = TsInt t -> (t' <= t)%Z
  | None =>
      forall e' t', e' ∈ entries -> timestamp e' = TsInt t' ->
                    in_window after_ms before_ms t' = false
  end.
Proof.
  intros Hsel. apply select_correct in Hsel. destruct r as [e|].
  - destruct Hsel as (Hin & Hq & Hmax). split; [exact Hin|].
    split; [now apply qualifies_ts|].
    intros e' t' t Hin' Ht' Hw Ht. apply (Hmax e' t' t); auto.
    unfold qualifies. now rewrite (proj2 (ts_get_timestamp e' t') Ht').
  - intros e' t' Hin' Ht'. specialize (Hsel e' Hin').
    unfold qualifies in Hsel. now rewrite (proj2 (ts_get_timestamp e' t') Ht') in Hsel.
Qed.

Lemma select_returns_newest_in_window_witness :
  select [Snapshots.untimed; Snapshots.at5] (Some 5%Z) None
    = OK (Some Snapshots.at5) /\
  Snapshots.at5 ∈ [Snapshots.untimed; Snapshots.at5].
Proof.
  assert (H : select [Snapshots.untimed; Snapshots.at5] (Some 5%Z) None
              = OK (Some Snapshots.at5)) by reflexivity.
  split; [exact H|].
  exact (proj1 (select_returns_newest_in_window _ _ _ _ H)).
Defined.

(** X10. The selection fails only with TypeError, and it does so exactly
    when the list has two or more entries and one of them has a [null]
    timestamp; the window plays no part. *)
Theorem select_raises_iff (entries : list entry) (after_ms before_ms : option Z)
    (x : exn) :
  select entries after_ms before_ms = Raise x <->
  x = TypeError /\ 2 <= length entries /\
  Exists (fun e => timestamp e = TsNull) entries.
Proof.
  unfold select. split.
  - destruct (sorted entries) as [s|x'] eqn:Hs; cbn [bind]; [discriminate|].
    intros [= ->]. pose proof (sorted_raise _ _ Hs) as ->.
    split; [reflexivity|]. now apply sorted_raises_iff.
  - intros (-> & Hlen & Hex).
    now rewrite (proj2 (sorted_raises_iff entries) (conj Hlen Hex)).
Qed.

Lemma insert_sorted_stable (k : Z) (e : entry) (l s : list entry) :
  insert_sorted e l = OK s ->
  filter (fun x => sort_key x = Some k) s =
  filter (fun x => sort_key x = Some k) (e :: l).
Proof.
  revert s. induction l as [|y l IH]; intros s; cbn [insert_sorted].
  - now intros [= <-].
  - destruct (key_lt (sort_key y) (sort_key e)) as [lt|] eqn:Hk;
      cbn [bind]; [|discriminate].
    apply key_lt_OK in Hk as (a & b & Hy & He & ->).
    destruct (Z.ltb_spec a b) as [Hlt|Hge]; [|now intros [= <-]].
    destruct (insert_sorted e l) as [r|] eqn:Hr; cbn [bind]; [|discriminate].
    intros [= <-]. rewrite (filter_cons _ y r), (IH r eq_refl).
    rewrite (filter_cons _ e (y :: l)), (filter_cons _ y l), (filter_cons _ e l).
    repeat case_decide; try reflexivity.
    exfalso. assert (a = b) by congruence. lia.
Qed.

Lemma sorted_stable (k : Z) (entries s : list entry) :
  sorted entries = OK s ->
  filter (fun x => sort_key x = Some k) s =
  filter (fun x => sort_key x = Some k) entries.
Proof.
  revert s. induction entries as [|e rest IH]; intros s; cbn [sorted].
  - now intros [= <-].
  - destruct (sorted rest) as [r|] eqn:Hr; cbn [bind]; [|discriminate].
    intros Hins. rewrite (insert_sorted_stable k e r s Hins).
    rewrite !filter_cons, (IH r eq_refl). reflexivity.
Qed.

Lemma filter_split {A : Type} (P : A -> Prop) `{forall x, Decision (P x)}
    (l : list A) :
  forall (front back : list A) (e : A),
    filter P l = front ++ e :: back ->
    exists l1 l2, l = l1 ++ e :: l2 /\ filter P l1 = front /\ filter P l2 = back.
Proof.
  induction l as [|x l IH]; intros front back e Hf.
  - destruct front; discriminate.
  - rewrite filter_cons in Hf. destruct (decide (P x)) as [HP|HP].
    + destruct front as [|a front]; cbn [app] in Hf.
      * injection Hf as -> Hback. exists [], l. auto.
      * injection Hf as -> Hf. destruct (IH _ _ _ Hf) as (l1 & l2 & -> & H1 & H2).
        exists (a :: l1), l2. rewrite filter_cons_True by exact HP.
        repeat split; [now rewrite H1 | exact H2].
    + destruct (IH _ _ _ Hf) as (l1 & l2 & -> & H1 & H2).
      exists (x :: l1), l2. rewrite filter_cons_False by exact HP.
      repeat split; assumption.
Qed.

(** X12. Ties go to the entry that comes last in the input. When an
    entry is selected, no entry after it in the input list has both a
    timestamp inside the window and the same timestamp as the selected
    one. *)
Theorem select_tie_goes_to_last (entries : list entry)
    (after_ms before_ms : option Z) (e : entry) :
  select entries after_ms before_ms = OK (Some e) ->
  exists l1 l2,
    entries = l1 ++ e :: l2 /\
    forall x, x ∈ l2 -> qualifies after_ms before_ms x = true ->
              timestamp x <> timestamp e.
Proof.
  unfold select. destruct (sorted entries) as [s|] eqn:Hs; cbn [bind]; [|discriminate].
  intros [= Hp]. apply pick_Some in Hp as (r1 & r2 & Hrev & Hr1 & He).
  assert (Hs' : s = reverse r2 ++ e :: reverse r1).
  { rewrite <- (reverse_involutive s), Hrev, reverse_app, reverse_cons.
    now rewrite <- app_assoc. }
  apply qualifies_ts in He as (t & Ht & _).
  assert (Hkey : sort_key e = Some t) by (unfold sort_key; now rewrite Ht).
  pose proof (sorted_stable t entries s Hs) as Hstable.
  rewrite Hs', filter_app, filter_cons_True in Hstable by exact Hkey.
  symmetry in Hstable.
  destruct (filter_split _ entries _ _ _ Hstable) as (l1 & l2 & -> & _ & Hl2).
  exists l1, l2. split; [reflexivity|].
  intros x Hx Hq Hsame.
  assert (Hkx : sort_key x = Some t).
  { unfold sort_key. now rewrite Hsame, Ht. }
  assert (Hin : x ∈ filter (fun x => sort_key x = Some t) l2).
  { apply list_elem_of_filter. split; assumption. }
  rewrite Hl2 in Hin. apply list_elem_of_filter in Hin as [_ Hin].
  rewrite elem_of_reverse in Hin.
  rewrite Forall_forall in Hr1. rewrite (Hr1 x Hin) in Hq. discriminate.
Qed.

Lemma select_tie_goes_to_last_witness :
  select Ties.entries (Some 0%Z) None = OK (Some Ties.second5) /\
  exists l1 l2,
    Ties.entries = l1 ++ Ties.second5 :: l2 /\ Ties.first5 ∈ l1.
Proof.
  assert (H : select Ties.entries (Some 0%Z) None = OK (Some Ties.second5))
    by reflexivity.
  split; [exact H|].
  destruct (select_tie_goes_to_last _ _ _ _ H) as (l1 & l2 & Hsplit & Htie).
  exists l1, l2. split; [exact Hsplit|].
  assert (Hin : Ties.first5 ∈ Ties.entries) by (left).
  rewrite Hsplit in Hin. apply elem_of_app in Hin as [Hin|Hin]; [exact Hin|].
  apply elem_of_cons in Hin as [Heq|Hin]; [discriminate Heq|].
  exfalso. exact (Htie Ties.first5 Hin eq_refl eq_refl).
Defined.

(** ** The record loader *)

Lemma substring_of_nonempty (k s : string) :
  k <> "" -> substring_of k s = true -> s <> "".
Proof.
  intros Hk Hsub ->. destruct k as [|c k]; [congruence|]. discriminate.
Qed.

(** One step of the loader, for a file that does not make it raise. *)
Lemma load_step_ok (st : loader_state) (r : path * file_read) :
  raised_by (snd r) = None ->
  load_step st r =
  OK {| file_histories :=
          file_histories st ++ match kept_record r with Some h => [h] | None => [] end;
        loader_stderr := loader_stderr st ++ record_warnings r |}.
Proof.
  destruct r as [fh f]. unfold load_step, kept_record, record_warnings.
  cbn [fst snd]. destruct f as [|msg|e|j]; cbn [load_json raised_by bind fst snd].
  - intros _. cbn. now rewrite !app_nil_r.
  - intros _. cbn. now rewrite !app_nil_r.
  - discriminate.
  - intros Hsafe. cbn [file_histories loader_stderr].
    assert (Hsafe' : aborts_loader j = false)
      by (destruct (aborts_loader j); [discriminate | reflexivity]).
    clear Hsafe. rename Hsafe' into Hsafe.
    destruct j as [|b|z|s|l|m]; cbn [aborts_loader] in Hsafe.
    + cbn. now rewrite !app_nil_r.
    + subst b. cbn. now rewrite !app_nil_r.
    + cbn [truthy]. rewrite Hsafe. cbn. now rewrite !app_nil_r.
    + cbn [truthy py_contains bind negb].
      destruct (String.eqb s ""); cbn [negb bind]; [now rewrite !app_nil_r|].
      apply andb_false_iff in Hsafe.
      destruct (substring_of "entries" s); cbn [negb bind];
        [|now rewrite !app_nil_r].
      destruct Hsafe as [Hf|Hf]; [discriminate|]. rewrite Hf. cbn.
      now rewrite !app_nil_r.
    + cbn [truthy py_contains bind negb].
      destruct l as [|x l]; cbn [negb bind]; [now rewrite !app_nil_r|].
      apply andb_false_iff in Hsafe.
      match goal with
      | |- context [if negb ?c then _ else _] => destruct c
      end; cbn [negb bind]; [|now rewrite !app_nil_r].
      destruct Hsafe as [Hf|Hf]; [discriminate|]. rewrite Hf. cbn.
      now rewrite !app_nil_r.
    + cbn [truthy py_contains py_getitem bind negb].
      destruct m as [|kv m']; cbn [negb bind]; [now rewrite !app_nil_r|].
      destruct (obj_get "entries" (kv :: m')) as [es|]; cbn [negb bind];
        [|now rewrite !app_nil_r].
      destruct (obj_get "resource" (kv :: m')) as [rs|]; cbn [negb bind];
        [|now rewrite !app_nil_r].
      destruct (truthy es); cbn [negb]; now rewrite ?app_nil_r.
Qed.

Lemma load_step_raises (st : loader_state) (fh : path) (j : json) :
  aborts_loader j = true -> load_step st (fh, Parsed j) = Raise TypeError.
Proof.
  intros Habort. unfold load_step. cbn [fst snd load_json bind].
  destruct j as [|b|z|s|l|m]; cbn [aborts_loader] in Habort; try discriminate.
  - subst b. reflexivity.
  - cbn [truthy]. rewrite Habort. reflexivity.
  - apply andb_true_iff in Habort as [He Hr].
    cbn [truthy py_contains py_getitem bind negb].
    pose proof (substring_of_nonempty "entries" s ltac:(discriminate) He) as Hne.
    apply String.eqb_neq in Hne. rewrite Hne, He, Hr. reflexivity.
  - apply andb_true_iff in Habort as [He Hr].
    cbn [truthy py_contains py_getitem bind negb].
    destruct l as [|x l]; [discriminate|]. cbn [negb bind].
    rewrite He, Hr. reflexivity.
Qed.

(** X13. On history files none of which makes the loader raise (no
    exception escapes [load_json], and no decoded value makes the
    membership tests or the subscript raise), the loader returns; it
    loads, in the order of the files, exactly the decoded objects that
    have a [resource] member and a non-empty [entries] member, each with
    the folder of its file, and prints one warning per file whose text is
    not valid JSON and nothing else. *)
Theorem load_all_keeps_good_records (recs : list (path * file_read)) :
  Forall (fun r => raised_by (snd r) = None) recs ->
  load_all recs =
  OK {| file_histories := omap kept_record recs;
        loader_stderr := flat_map record_warnings recs |}.
Proof.
  intros Hsafe. unfold load_all.
  change (omap kept_record recs)
    with (file_histories {| file_histories := []; loader_stderr := [] |}
            ++ omap kept_record recs).
  change (flat_map record_warnings recs)
    with (loader_stderr {| file_histories := []; loader_stderr := [] |}
            ++ flat_map record_warnings recs).
  generalize {| file_histories := []; loader_stderr := [] |}.
  induction Hsafe as [|r recs Hr _ IH]; intros st; cbn [load_loop].
  - cbn. rewrite !app_nil_r. now destruct st.
  - rewrite (load_step_ok st r Hr). cbn [bind]. rewrite IH.
    cbn [file_histories loader_stderr omap flat_map].
    rewrite <- !app_assoc. f_equal. f_equal.
    unfold omap; cbn. destruct (kept_record r); reflexivity.
Qed.

Lemma load_all_keeps_good_records_witness :
  load_all [History.no_entries; History.garbled; History.empty; History.good] =
  OK {| file_histories :=
          omap kept_record
            [History.no_entries; History.garbled; History.empty; History.good];
        loader_stderr :=
          flat_map record_warnings
            [History.no_entries; History.garbled; History.empty; History.good] |}.
Proof.
  apply load_all_keeps_good_records.
  repeat constructor.
Defined.

(** X14. One step of the loader raises exactly in two cases: opening or
    decoding the file raises an exception other than FileNotFoundError
    and JSONDecodeError, which [load_json] lets through unchanged; or the
    file decodes to a non-zero number, to [true], or to a string or a
    list that passes both membership tests, and the exception is
    TypeError. Either way the whole load ends with that exception,
    whatever records follow. A missing file, a file whose text is not
    valid JSON, and a decoded object never raise. *)
Theorem load_step_raises_iff (st : loader_state) (fh : path) (f : file_read)
    (x : exn) :
  (load_step st (fh, f) = Raise x <->
   f = Escapes x \/
   (x = TypeError /\ exists j, f = Parsed j /\ aborts_loader j = true)) /\
  (forall rest, load_step st (fh, f) = Raise x ->
                load_loop ((fh, f) :: rest) st = Raise x).
Proof.
  split.
  - split.
    + intros Hraise. destruct (raised_by f) as [e|] eqn:Hab.
      * destruct f as [| |e'|j]; try discriminate.
        -- left. cbn in Hraise. congruence.
        -- right. cbn [raised_by] in Hab.
           destruct (aborts_loader j) eqn:Hj; [|discriminate].
           rewrite (load_step_raises st fh j Hj) in Hraise.
           injection Hraise as <-. eauto.
      * rewrite load_step_ok in Hraise; [discriminate | exact Hab].
    + intros [->|(-> & j & -> & Hab)]; [reflexivity | now apply load_step_raises].
  - intros rest Hraise. cbn [load_loop]. now rewrite Hraise.
Qed.

Lemma load_step_raises_iff_witness :
  load_step {| file_histories := []; loader_stderr := [] |}
    (["hist"; "9"; "entries.json"], Escapes UnicodeDecodeError)
    = Raise UnicodeDecodeError /\
  load_all [(["hist"; "9"; "entries.json"], Escapes UnicodeDecodeError);
            History.good]
    = Raise UnicodeDecodeError.
Proof.
  assert (H : load_step {| file_histories := []; loader_stderr := [] |}
                (["hist"; "9"; "entries.json"], Escapes UnicodeDecodeError)
              = Raise UnicodeDecodeError) by reflexivity.
  split; [exact H|].
  exact (proj2 (load_step_raises_iff _ _ _ _) [History.good] H).
Defined.

(** ** The file system: mkdir, write_text, read_text *)

Lemma lookup_update_child (nm t : string) (c : node) (ch : list (string * node)) :
  lookup_child t (update_child nm c ch) =
  if String.eqb nm t then Some c else lookup_child t ch.
Proof.
  induction ch as [|[k x] ch IH]; cbn [update_child lookup_child].
  - reflexivity.
  - destruct (String.eqb_spec k nm) as [->|Hne]; cbn [lookup_child].
    + destruct (String.eqb nm t); reflexivity.
    + rewrite IH. destruct (String.eqb_spec k t) as [->|Hkt]; [|reflexivity].
      destruct (String.eqb_spec nm t) as [->|_]; [congruence | reflexivity].
Qed.

Lemma update_child_same (nm : string) (c : node) (ch : list (string * node)) :
  lookup_child nm ch = Some c -> update_child nm c ch = ch.
Proof.
  induction ch as [|[k x] ch IH]; cbn [update_child lookup_child]; [discriminate|].
  destruct (String.eqb k nm).
  - now intros [= ->].
  - intros H. now rewrite IH.
Qed.

Lemma read_text_nil (n : node) :
  read_text n [] =
  match n with
  | File content => Some (universal_newlines content)
  | Dir _ => None
  end.
Proof. reflexivity. Qed.

Lemma universal_newlines_cr_lf (s : string) :
  universal_newlines (String "013"%char (String "010"%char s)) =
  String "010"%char (universal_newlines s).
Proof. reflexivity. Qed.

Lemma universal_newlines_cr (c : ascii) (s : string) :
  Ascii.eqb c "010"%char = false ->
  universal_newlines (String "013"%char (String c s)) =
  String "010"%char (universal_newlines (String c s)).
Proof.
  intros Hc. change (universal_newlines (String "013"%char (String c s)))
    with (if Ascii.eqb c "010"%char
          then String "010"%char (universal_newlines s)
          else String "010"%char (universal_newlines (String c s))).
  now rewrite Hc.
Qed.

Lemma universal_newlines_other (c : ascii) (s : string) :
  Ascii.eqb c "013"%char = false ->
  universal_newlines (String c s) = String c (universal_newlines s).
Proof.
  intros Hc. change (universal_newlines (String c s))
    with (if Ascii.eqb c "013"%char
          then match s with
               | String c' s'' =>
                   if Ascii.eqb c' "010"%char
                   then String "010"%char (universal_newlines s'')
                   else String "010"%char (universal_newlines s)
               | EmptyString => String "010"%char EmptyString
               end
          else String c (universal_newlines s)).
  now rewrite Hc.
Qed.

(** Translating the newlines twice is translating them once: a text
    that was read from a snapshot is written and read back unchanged. *)
Lemma universal_newlines_idem_len (n : nat) :
  forall s, String.length s <= n ->
            universal_newlines (universal_newlines s) = universal_newlines s.
Proof.
  induction n as [|n IH]; intros [|c s] Hlen; cbn [String.length] in Hlen;
    try reflexivity; [lia|].
  destruct (Ascii.eqb c "013"%char) eqn:Hc.
  - apply Ascii.eqb_eq in Hc. subst c.
    destruct s as [|c' s']; [reflexivity|].
    cbn [String.length] in Hlen.
    destruct (Ascii.eqb c' "010"%char) eqn:Hc'.
    + apply Ascii.eqb_eq in Hc'. subst c'.
      rewrite universal_newlines_cr_lf.
      rewrite (universal_newlines_other "010"%char) by reflexivity.
      f_equal. apply IH. lia.
    + rewrite (universal_newlines_cr c' s' Hc').
      rewrite (universal_newlines_other "010"%char) by reflexivity.
      f_equal. apply IH. cbn [String.length]. lia.
  - rewrite (universal_newlines_other c s Hc).
    rewrite (universal_newlines_other c _ Hc).
    f_equal. apply IH. lia.
Qed.

Lemma universal_newlines_idem (s : string) :
  universal_newlines (universal_newlines s) = universal_newlines s.
Proof. now apply (universal_newlines_idem_len (String.length s)). Qed.

Lemma read_text_cons (n : node) (t : string) (q : path) :
  read_text n (t :: q) =
  match n with
  | File _ => None
  | Dir ch =>
      match lookup_child t ch with
      | Some c => read_text c q
      | None => None
      end
  end.
Proof.
  unfold read_text. cbn [node_at]. destruct n as [|ch]; [reflexivity|].
  destruct (lookup_child t ch); reflexivity.
Qed.

Lemma read_text_empty_dir (q : path) : read_text (Dir []) q = None.
Proof. destruct q; reflexivity. Qed.

Lemma node_at_File_cons (content s : string) (q : path) :
  node_at (File content) (s :: q) = None.
Proof. reflexivity. Qed.

(** Along segments without [".."] the operating system reaches the path
    itself, or stops at a segment that is not an existing directory. *)
Lemma os_resolve_plain (fs : node) (segs : list string) :
  forall cur,
    ".." ∉ segs ->
    match os_resolve fs cur segs with
    | Some q => q = cur ++ segs
    | None => node_at fs (cur ++ segs) = None
    end.
Proof.
  induction segs as [|s rest IH]; intros cur Hdots; cbn [os_resolve].
  - now rewrite app_nil_r.
  - apply not_elem_of_cons in Hdots as [Hs Hrest].
    destruct (node_at fs cur) as [[content|ch]|] eqn:Hcur.
    + rewrite node_at_app, Hcur. apply node_at_File_cons.
    + destruct (String.eqb_spec s "..") as [->|_]; [congruence|].
      specialize (IH (cur ++ [s]) Hrest).
      now rewrite <- app_assoc in IH.
    + now rewrite node_at_app, Hcur.
Qed.

(** A blob path without [".."] exists, and reads, as the path itself. *)
Lemma os_lookup_plain (fs : node) (p : path) :
  ".." ∉ p ->
  os_exists fs p = path_exists fs p /\ os_read_text fs p = read_text fs p.
Proof.
  intros Hdots. unfold os_exists, os_read_text, path_exists, read_text.
  pose proof (os_resolve_plain fs p [] Hdots) as H. cbn [app] in H.
  destruct (os_resolve fs [] p) as [q|]; [now subst q | now rewrite H].
Qed.

Lemma mkdir_p_cons (s : string) (p : path) (ch : list (string * node)) :
  mkdir_p (s :: p) (Dir ch) =
  perform c <- mkdir_p p (default (Dir []) (lookup_child s ch));;
  OK (Dir (update_child s c ch)).
Proof. reflexivity. Qed.

Lemma mkdir_p_is_dir (p : path) :
  forall fs fs', mkdir_p p fs = OK fs' -> exists ch, node_at fs' p = Some (Dir ch).
Proof.
  induction p as [|s p IH]; intros [content|ch] fs'; try discriminate.
  - intros [= <-]. now exists ch.
  - rewrite mkdir_p_cons.
    destruct (mkdir_p p (default (Dir []) (lookup_child s ch))) as [c|] eqn:Hc;
      cbn [bind]; [|discriminate].
    intros [= <-]. cbn [node_at]. rewrite lookup_update_child, String.eqb_refl.
    exact (IH _ c Hc).
Qed.

Lemma mkdir_p_again (p : path) :
  forall fs fs', mkdir_p p fs = OK fs' -> mkdir_p p fs' = OK fs'.
Proof.
  induction p as [|s p IH]; intros [content|ch] fs'; try discriminate.
  - now intros [= <-].
  - rewrite mkdir_p_cons.
    destruct (mkdir_p p (default (Dir []) (lookup_child s ch))) as [c|] eqn:Hc;
      cbn [bind]; [|discriminate].
    intros [= <-]. rewrite mkdir_p_cons, lookup_update_child, String.eqb_refl.
    change (default (Dir []) (Some c)) with c.
    rewrite (IH _ c Hc). cbn [bind].
    rewrite (update_child_same s c); [reflexivity|].
    now rewrite lookup_update_child, String.eqb_refl.
Qed.

Lemma mkdir_p_keeps_files (p : path) :
  forall fs fs' q, mkdir_p p fs = OK fs' -> read_text fs' q = read_text fs q.
Proof.
  induction p as [|s p IH]; intros [content|ch] fs' q; try discriminate.
  - now intros [= <-].
  - rewrite mkdir_p_cons.
    destruct (mkdir_p p (default (Dir []) (lookup_child s ch))) as [c|] eqn:Hc;
      cbn [bind]; [|discriminate].
    intros [= <-]. destruct q as [|t q]; [reflexivity|].
    rewrite !read_text_cons, lookup_update_child.
    destruct (String.eqb_spec s t) as [<-|_]; [|reflexivity].
    rewrite (IH _ c q Hc).
    destruct (lookup_child s ch); [reflexivity | apply read_text_empty_dir].
Qed.

(** [mkdir(parents=True, exist_ok=True)], when it succeeds, leaves
    a directory at the path, changes nothing when repeated, and changes
    the content of no file, old or new: reading any path as a file gives
    what it gave before. *)
Theorem mkdir_p_creates_only_directories (p : path) (fs fs' : node) :
  mkdir_p p fs = OK fs' ->
  (exists ch, node_at fs' p = Some (Dir ch)) /\
  mkdir_p p fs' = OK fs' /\
  forall q, read_text fs' q = read_text fs q.
Proof.
  intros H. split; [now apply (mkdir_p_is_dir p fs)|].
  split; [now apply (mkdir_p_again p fs)|].
  intros q. now apply (mkdir_p_keeps_files p).
Qed.

Lemma mkdir_p_creates_only_directories_witness :
  mkdir_p ["proj2"; "x"] DryRun.fs
    = OK (Dir [("hist",
                Dir [("1", Dir [("entries.json", File "{}"); ("s1.py", File "first")]);
                     ("2", Dir [("entries.json", File "{}"); ("s2.py", File "second")])]);
               ("proj2", Dir [("x", Dir [])])]) /\
  forall q,
    read_text (Dir [("hist",
                Dir [("1", Dir [("entries.json", File "{}"); ("s1.py", File "first")]);
                     ("2", Dir [("entries.json", File "{}"); ("s2.py", File "second")])]);
               ("proj2", Dir [("x", Dir [])])]) q
    = read_text DryRun.fs q.
Proof.
  assert (H : mkdir_p ["proj2"; "x"] DryRun.fs
    = OK (Dir [("hist",
                Dir [("1", Dir [("entries.json", File "{}"); ("s1.py", File "first")]);
                     ("2", Dir [("entries.json", File "{}"); ("s2.py", File "second")])]);
               ("proj2", Dir [("x", Dir [])])])) by reflexivity.
  split; [exact H|].
  exact (proj2 (proj2 (mkdir_p_creates_only_directories _ _ _ H))).
Defined.

Lemma mkdir_p_raise (p : path) :
  forall fs x, mkdir_p p fs = Raise x -> x = OSError.
Proof.
  induction p as [|s p IH]; intros [content|ch] x;
    [now intros [= <-] | discriminate | now intros [= <-] |].
  rewrite mkdir_p_cons.
  destruct (mkdir_p p (default (Dir []) (lookup_child s ch))) as [c|x'] eqn:Hc;
    cbn [bind]; [discriminate|].
  intros [= <-]. exact (IH _ _ Hc).
Qed.

Lemma mkdir_p_blocked (p : path) :
  forall fs,
    (exists x, mkdir_p p fs = Raise x) <->
    exists q content, q `prefix_of` p /\ node_at fs q = Some (File content).
Proof.
  induction p as [|s p IH]; intros [content|ch].
  - split; [intros _|intros _; now exists OSError].
    exists [], content. split; [reflexivity | reflexivity].
  - split; [intros [x Hx]; discriminate|].
    intros (q & content & Hpre & Hq).
    apply prefix_nil_inv in Hpre. subst q. discriminate.
  - split; [intros _|intros _; now exists OSError].
    exists [], content. split; [apply prefix_nil | reflexivity].
  - rewrite mkdir_p_cons. split.
    + intros [x Hx].
      destruct (mkdir_p p (default (Dir []) (lookup_child s ch))) as [c|x'] eqn:Hc;
        cbn [bind] in Hx; [discriminate|].
      destruct (proj1 (IH _) (ex_intro _ x' Hc)) as (q & content & Hpre & Hq).
      destruct (lookup_child s ch) as [c0|] eqn:Hs;
        [change (default (Dir []) (Some c0)) with c0 in Hq
        |change (default (Dir []) None) with (Dir []) in Hq].
      * exists (s :: q), content. split; [now apply prefix_cons|].
        cbn [node_at]. now rewrite Hs.
      * exfalso. destruct q as [|t q]; discriminate.
    + intros (q & content & Hpre & Hq).
      destruct q as [|t q]; [discriminate|].
      cbn [node_at] in Hq.
      destruct (lookup_child t ch) as [c0|] eqn:Ht; [|discriminate].
      pose proof (prefix_cons_inv_1 _ _ _ _ Hpre) as ->.
      pose proof (prefix_cons_inv_2 _ _ _ _ Hpre) as Hpre'.
      rewrite Ht. change (default (Dir []) (Some c0)) with c0.
      destruct (proj2 (IH c0) (ex_intro _ q (ex_intro _ content (conj Hpre' Hq))))
        as [x Hx].
      exists x. now rewrite Hx.
Qed.

(** [mkdir(parents=True, exist_ok=True)] fails exactly when a
    regular file sits at the path or at one of its ancestors, and the
    failure is an OSError. *)
Theorem mkdir_p_fails_iff_file_in_the_way (p : path) (fs : node) (x : exn) :
  mkdir_p p fs = Raise x <->
  x = OSError /\
  exists q content, q `prefix_of` p /\ node_at fs q = Some (File content).
Proof.
  split.
  - intros H. split; [now apply (mkdir_p_raise p fs)|].
    apply mkdir_p_blocked. now exists x.
  - intros (-> & Hfile). apply mkdir_p_blocked in Hfile as [x Hx].
    now rewrite (mkdir_p_raise p fs x Hx) in Hx.
Qed.

Lemma write_text_cons (s : string) (p : path) (text : string)
    (ch : list (string * node)) :
  write_text (s :: p) text (Dir ch) =
  match lookup_child s ch with
  | Some c =>
      perform c' <- write_text p text c;;
      OK (Dir (update_child s c' ch))
  | None =>
      match p with
      | [] => OK (Dir (update_child s (File text) ch))
      | _ :: _ => Raise OSError
      end
  end.
Proof. reflexivity. Qed.

Lemma write_then_read (p : path) (text : string) :
  forall fs fs',
    write_text p text fs = OK fs' ->
    read_text fs' p = Some (universal_newlines text).
Proof.
  induction p as [|s p IH]; intros [content|ch] fs'; try discriminate.
  - now intros [= <-].
  - rewrite write_text_cons, read_text_cons.
    destruct (lookup_child s ch) as [c|] eqn:Hs.
    + destruct (write_text p text c) as [c'|] eqn:Hc; cbn [bind]; [|discriminate].
      intros [= <-]. rewrite lookup_update_child, String.eqb_refl.
      exact (IH _ _ Hc).
    + destruct p; [|discriminate].
      intros [= <-]. now rewrite lookup_update_child, String.eqb_refl.
Qed.

Lemma write_keeps_others (p : path) (text : string) :
  forall fs fs' q,
    write_text p text fs = OK fs' -> q <> p -> read_text fs' q = read_text fs q.
Proof.
  induction p as [|s p IH]; intros [content|ch] fs' q; try discriminate.
  - intros [= <-] Hq. destruct q as [|t q]; [congruence | reflexivity].
  - rewrite write_text_cons.
    destruct (lookup_child s ch) as [c|] eqn:Hs.
    + destruct (write_text p text c) as [c'|] eqn:Hc; cbn [bind]; [|discriminate].
      intros [= <-] Hq. destruct q as [|t q]; [reflexivity|].
      rewrite !read_text_cons, lookup_update_child.
      destruct (String.eqb_spec s t) as [<-|_]; [|reflexivity].
      rewrite Hs. apply (IH _ _ _ Hc). congruence.
    + destruct p; [|discriminate].
      intros [= <-] Hq. destruct q as [|t q]; [reflexivity|].
      rewrite !read_text_cons, lookup_update_child.
      destruct (String.eqb_spec s t) as [<-|_]; [|reflexivity].
      rewrite Hs. destruct q as [|t' q]; [congruence | reflexivity].
Qed.

(** Writing and reading back. After a successful [write_text] the
    path reads as the text written, with its newlines translated, and
    every other path reads as it did before. *)
Theorem write_text_read_text (p : path) (text : string) (fs fs' : node) :
  write_text p text fs = OK fs' ->
  read_text fs' p = Some (universal_newlines text) /\
  forall q, q <> p -> read_text fs' q = read_text fs q.
Proof.
  intros H. split; [now apply (write_then_read p text fs)|].
  intros q Hq. now apply (write_keeps_others p text fs).
Qed.

Lemma write_text_read_text_witness :
  write_text ["proj2"; "a.py"] "new" DryRun.fs
    = OK (Dir [("hist",
                Dir [("1", Dir [("entries.json", File "{}"); ("s1.py", File "first")]);
                     ("2", Dir [("entries.json", File "{}"); ("s2.py", File "second")])]);
               ("proj2", Dir [("a.py", File "new")])]) /\
  read_text (Dir [("hist",
                Dir [("1", Dir [("entries.json", File "{}"); ("s1.py", File "first")]);
                     ("2", Dir [("entries.json", File "{}"); ("s2.py", File "second")])]);
               ("proj2", Dir [("a.py", File "new")])]) ["proj2"; "a.py"]
    = Some "new".
Proof.
  assert (H : write_text ["proj2"; "a.py"] "new" DryRun.fs
    = OK (Dir [("hist",
                Dir [("1", Dir [("entries.json", File "{}"); ("s1.py", File "first")]);
                     ("2", Dir [("entries.json", File "{}"); ("s2.py", File "second")])]);
               ("proj2", Dir [("a.py", File "new")])])) by reflexivity.
  split; [exact H|].
  exact (proj1 (write_text_read_text _ _ _ _ H)).
Defined.

Lemma write_text_succeeds (dirs : path) (f text : string) :
  forall fs,
    (exists fs', write_text (dirs ++ [f]) text fs = OK fs') <->
    (exists ch, node_at fs dirs = Some (Dir ch)) /\
    (forall ch, node_at fs (dirs ++ [f]) <> Some (Dir ch)).
Proof.
  induction dirs as [|s dirs IH]; intros [content|ch]; cbn [app].
  - split; [intros [fs' H]; discriminate | intros [[ch H] _]; discriminate].
  - rewrite write_text_cons. cbn [node_at].
    destruct (lookup_child f ch) as [[content|sub]|].
    + split; [intros _|intros _; now eexists].
      split; [now exists ch | discriminate].
    + split; [intros [fs' H]; discriminate|].
      intros [_ H]. exfalso. now apply (H sub).
    + split; [intros _|intros _; now eexists].
      split; [now exists ch | discriminate].
  - split; [intros [fs' H]; discriminate | intros [[ch H] _]; discriminate].
  - rewrite write_text_cons. cbn [node_at].
    destruct (lookup_child s ch) as [c|].
    + rewrite <- IH. split.
      * intros [fs' H].
        destruct (write_text (dirs ++ [f]) text c) as [c'|]; [now exists c' | discriminate].
      * intros [c' ->]. cbn [bind]. now eexists.
    + split; [|intros [[ch' H] _]; discriminate].
      intros [fs' H]. destruct dirs; discriminate.
Qed.

(** [write_text] succeeds exactly when the parent of the path is an
    existing directory and the path itself is not a directory; a missing
    parent is not created. *)
Theorem write_text_succeeds_iff (dirs : path) (f text : string) (fs : node) :
  (exists fs', write_text (dirs ++ [f]) text fs = OK fs') <->
  (exists ch, node_at fs dirs = Some (Dir ch)) /\
  (forall ch, node_at fs (dirs ++ [f]) <> Some (Dir ch)).
Proof. apply write_text_succeeds. Qed.

(** ** The restore loop *)

Lemma path_snoc_parent_name (p : path) :
  p <> [] -> p = parent p ++ [name p].
Proof. intros Hp. unfold parent, name. now apply app_removelast_last. Qed.



Lemma restore_one_cases (dry_run : bool) (after_ms before_ms : option Z)
    (st st' : run_state) (t : tracked_file) :
  restore_one dry_run after_ms before_ms st t = OK st' ->
  st' = st \/
  (exists line, st' = warn st line) \/
  (exists text, place_step dry_run st (resource_path t, text) = OK st').
Proof.
  unfold restore_one.
  destruct (admitted (restore_from (placer st)) (resource_path t)); cbn [negb];
    [|intros [= <-]; now left].
  destruct (select (history_entries t) after_ms before_ms) as [[chosen|]|];
    cbn [bind]; [|intros [= <-]; now left|discriminate].
  destruct (id chosen) as [last_id|]; [|intros [= <-]; now left].
  destruct (String.eqb last_id ""); [intros [= <-]; now left|].
  match goal with
  | |- match ?found with _ => _ end = _ -> _ => destruct found as [code_path|]
  end; [|intros [= <-]; right; left; eauto].
  destruct (os_read_text (fs_now st) code_path) as [text|];
    [|intros [= <-]; right; left; eauto].
  intros H. right. right. eauto.
Qed.

Lemma place_step_effect (dry_run : bool) (st st' : run_state) (item : path * string) :
  place_step dry_run st item = OK st' ->
  (dry_run = true -> forall q, read_text (fs_now st') q = read_text (fs_now st) q) /\
  reports dry_run (fst item) st st'.
Proof.
  unfold place_step, reports.
  destruct (choose_dest (fs_now st) (placer st) (fst item)) as [dest placer'].
  destruct (mkdir_p (parent dest) (fs_now st)) as [fs1|] eqn:Hmk;
    cbn [bind]; [|discriminate].
  destruct dry_run; cbn [negb].
  - intros [= <-]. cbn [fs_now stdout restored_count]. split.
    + intros _ q. now apply (mkdir_p_keeps_files (parent dest)).
    + eexists. split; [reflexivity|]. split; [reflexivity|].
      constructor; [split; reflexivity | constructor].
  - destruct (write_text dest (snd item) fs1) as [fs2|]; intros [= <-];
      cbn [fs_now stdout restored_count]; (split; [discriminate|]).
    + eexists. split; [reflexivity|]. split; [reflexivity|].
      constructor; [split; reflexivity | constructor].
    + exists []. rewrite app_nil_r. split; [reflexivity|].
      split; [cbn; lia | constructor].
Qed.

Lemma restore_one_effect (dry_run : bool) (after_ms before_ms : option Z)
    (st st' : run_state) (t : tracked_file) :
  restore_one dry_run after_ms before_ms st t = OK st' ->
  (dry_run = true -> forall q, read_text (fs_now st') q = read_text (fs_now st) q) /\
  reports dry_run (resource_path t) st st'.
Proof.
  intros H.
  assert (Hnone : forall s : run_state, reports dry_run (resource_path t) s s).
  { intros s. exists []. rewrite app_nil_r. split; [reflexivity|].
    split; [cbn; lia | constructor]. }
  destruct (restore_one_cases _ _ _ _ _ _ H) as [->|[[line ->]|[text Hp]]].
  - split; [reflexivity | apply Hnone].
  - split; [reflexivity|]. apply (Hnone st).
  - apply (place_step_effect dry_run st st' (resource_path t, text) Hp).
Qed.

Lemma restore_loop_effect (dry_run : bool) (after_ms before_ms : option Z)
    (files : list tracked_file) :
  forall st st',
    restore_loop dry_run after_ms before_ms files st = OK st' ->
    (dry_run = true -> forall q, read_text (fs_now st') q = read_text (fs_now st) q) /\
    exists lines,
      stdout st' = stdout st ++ lines /\
      restored_count st' = restored_count st + length lines /\
      Forall (fun line => line.1.1 = action_of dry_run /\
                          exists t, t ∈ files /\ line.1.2 = resource_path t) lines.
Proof.
  induction files as [|t files IH]; intros st st'; cbn [restore_loop].
  - intros [= <-]. split; [reflexivity|].
    exists []. rewrite app_nil_r. split; [reflexivity|].
    split; [cbn; lia | constructor].
  - destruct (restore_one dry_run after_ms before_ms st t) as [st1|] eqn:H1;
      cbn [bind]; [|discriminate].
    intros Hloop.
    destruct (restore_one_effect _ _ _ _ _ _ H1) as (Hfs1 & l1 & Hout1 & Hcnt1 & Hl1).
    destruct (IH st1 st' Hloop) as (Hfs & l2 & Hout & Hcnt & Hl2). split.
    + intros Hdry q. rewrite (Hfs Hdry q). now apply Hfs1.
    + exists (l1 ++ l2). rewrite Hout, Hout1, Hcnt, Hcnt1, length_app, <- app_assoc.
      split; [reflexivity|]. split; [lia|].
      apply Forall_app. split.
      * eapply Forall_impl; [exact Hl1|]. intros line [Ha Hs].
        split; [exact Ha|]. exists t. split; [left | exact Hs].
      * eapply Forall_impl; [exact Hl2|]. intros line (Ha & t' & Ht' & Hs).
        split; [exact Ha|]. exists t'. split; [now right | exact Hs].
Qed.

(** X16. A dry run changes the content of no file: after it, every path
    reads as a file exactly as it did before the run. (Directories may
    have been created.) *)
Theorem dry_run_changes_no_file_content (restore_from restore_to : path)
    (after_ms before_ms : option Z) (fs : node) (files : list tracked_file)
    (st : run_state) :
  main_restore true restore_from restore_to after_ms before_ms fs files = OK st ->
  forall q, read_text (fs_now st) q = read_text fs q.
Proof.
  unfold main_restore.
  destruct (mkdir_p restore_to fs) as [fs0|] eqn:Hmk; cbn [bind]; [|discriminate].
  intros Hrun q. rewrite <- (mkdir_p_keeps_files _ _ _ q Hmk).
  destruct files as [|t files]; [now injection Hrun as <-|].
  destruct (restore_loop_effect _ _ _ _ _ _ Hrun) as [Hfs _].
  now rewrite (Hfs eq_refl q).
Qed.

Lemma dry_run_changes_no_file_content_witness :
  exists st,
    DryRun.run true [DryRun.first; DryRun.second] = OK st /\
    read_text (fs_now st) ["proj2"; "x"; "a.py"] = None.
Proof.
  eexists. split; [vm_compute; reflexivity|].
  exact (dry_run_changes_no_file_content ["proj"] ["proj2"] (Some 150%Z) None
           DryRun.fs [DryRun.first; DryRun.second] _ eq_refl ["proj2"; "x"; "a.py"]).
Defined.

(** X17. The summary count equals the number of report lines, every
    report line carries the verb of the mode (WOULD_RESTORE in a dry run,
    RESTORED otherwise), and every line is about one of the tracked
    files. *)
Theorem report_lines_are_counted (dry_run : bool) (restore_from restore_to : path)
    (after_ms before_ms : option Z) (fs : node) (files : list tracked_file)
    (st : run_state) :
  main_restore dry_run restore_from restore_to after_ms before_ms fs files = OK st ->
  restored_count st = length (stdout st) /\
  Forall (fun line => line.1.1 = action_of dry_run /\
                      exists t, t ∈ files /\ line.1.2 = resource_path t) (stdout st).
Proof.
  unfold main_restore.
  destruct (mkdir_p restore_to fs) as [fs0|] eqn:Hmk; cbn [bind]; [|discriminate].
  destruct files as [|t files].
  - intros [= <-]. cbn. split; [reflexivity | constructor].
  - intros Hrun.
    destruct (restore_loop_effect _ _ _ _ _ _ Hrun) as (_ & lines & Hout & Hcnt & Hl).
    cbn [stdout restored_count app] in Hout, Hcnt. rewrite Hout, Hcnt.
    split; [reflexivity | exact Hl].
Qed.

Lemma report_lines_are_counted_witness :
  exists st,
    DryRun.run false [DryRun.first; DryRun.second] = OK st /\
    restored_count st = length (stdout st).
Proof.
  eexists. split; [vm_compute; reflexivity|].
  exact (proj1 (report_lines_are_counted false ["proj"] ["proj2"] (Some 150%Z) None
                  DryRun.fs [DryRun.first; DryRun.second] _ eq_refl)).
Defined.

(** ** Admission *)

Lemma parents_elem (src_path q : path) :
  q ∈ parents src_path <-> exists rest, rest <> [] /\ src_path = q ++ rest.
Proof.
  induction src_path as [|x l IH] using rev_ind.
  - rewrite parents_nil. split; [intros H; inversion H|].
    intros (rest & Hne & Heq). symmetry in Heq.
    apply app_eq_nil in Heq as [_ ->]. congruence.
  - rewrite parents_snoc, elem_of_cons, IH. split.
    + intros [->|(rest & Hne & ->)].
      * exists [x]. split; [discriminate | reflexivity].
      * exists (rest ++ [x]). split; [now destruct rest | now rewrite app_assoc].
    + intros (rest & Hne & Heq).
      destruct rest as [|y rest _] using rev_ind; [congruence|].
      rewrite app_assoc in Heq. apply app_inj_tail in Heq as [-> ->].
      destruct rest as [|z rest]; [left; now rewrite app_nil_r|].
      right. exists (z :: rest). split; [discriminate | reflexivity].
Qed.

Lemma names_of_path (src_path : path) (y : string) :
  y ∈ name src_path :: map name (parents src_path) <-> y ∈ src_path \/ y = "".
Proof.
  induction src_path as [|x l IH] using rev_ind.
  - cbn. rewrite elem_of_cons. split.
    + intros [->|H]; [now right | inversion H].
    + intros [H| ->]; [inversion H | now left].
  - rewrite name_snoc, parents_snoc. cbn [map].
    rewrite elem_of_cons, IH, elem_of_app, list_elem_of_singleton. tauto.
Qed.

Lemma in_tree_prefix (restore_from src_path : path) :
  (existsb (fun q => bool_decide (q = restore_from)) (parents src_path)
   || bool_decide (src_path = restore_from)) = true <->
  restore_from `prefix_of` src_path.
Proof.
  rewrite orb_true_iff, existsb_exists, bool_decide_eq_true. split.
  - intros [(q & Hq & Heq)|Heq]; [|now rewrite Heq].
    apply bool_decide_eq_true in Heq. subst q.
    apply list_elem_of_In in Hq. apply parents_elem in Hq.
    destruct Hq as (rest & _ & Hsrc). now exists rest.
  - intros [rest ->]. destruct rest as [|r rest].
    + right. now rewrite app_nil_r.
    + left. exists restore_from. split; [|now apply bool_decide_eq_true].
      apply list_elem_of_In, parents_elem. exists (r :: rest).
      split; [discriminate | reflexivity].
Qed.

Lemma admitted_cases (restore_from src_path : path) :
  admitted restore_from src_path = true <->
  restore_from `prefix_of` src_path \/
  name restore_from ∈ src_path \/
  name restore_from = "".
Proof.
  unfold admitted. cbv zeta.
  destruct (existsb (fun q => bool_decide (q = restore_from)) (parents src_path)
            || bool_decide (src_path = restore_from)) eqn:Htree; cbn [negb].
  - split; [intros _; left; now apply in_tree_prefix | reflexivity].
  - assert (Hnot : ~ restore_from `prefix_of` src_path).
    { intros H. apply in_tree_prefix in H. congruence. }
    rewrite negb_true_iff, andb_false_iff, !negb_false_iff.
    rewrite str_in_elem, String.eqb_eq.
    pose proof (names_of_path src_path (name restore_from)) as Hn.
    rewrite elem_of_cons in Hn. split.
    + intros [H|H]; right; apply Hn; [now right | now left].
    + intros [H|H]; [contradiction|].
      apply Hn in H as [H|H]; [right; congruence | now left].
Qed.

(** X18. The admission test of [main]. A tracked file is processed
    exactly when its path lies under the source root (or is the source
    root), or the source root's folder name occurs among the segments of
    its path, or that folder name is empty. *)
Theorem admitted_iff (restore_from src_path : path) :
  admitted restore_from src_path = true <->
  restore_from `prefix_of` src_path \/
  name restore_from ∈ src_path \/
  name restore_from = "".
Proof. apply admitted_cases. Qed.

Lemma tier34_anchor (self : DestPlacer) (pre rest : list string) :
  restore_from_name self ∉ pre ->
  restore_from_name self <> "/" ->
  tier34 self (pre ++ restore_from_name self :: rest) =
  join (restore_to self)
       (match rest with
        | [] => of_str (restore_from_name self)
        | _ :: _ => rest
        end).
Proof.
  intros Hpre Hslash. unfold tier34, parts.
  assert (Hin : str_in (restore_from_name self)
                  ("/" :: pre ++ restore_from_name self :: rest) = true).
  { apply str_in_elem. right. apply elem_of_app. right. left. }
  rewrite Hin.
  assert (Hidx : str_index (restore_from_name self)
                   ("/" :: pre ++ restore_from_name self :: rest)
                 = Some (S (length pre))).
  { apply (str_index_first _ ("/" :: pre) rest).
    apply not_elem_of_cons. split; [exact Hslash | exact Hpre]. }
  rewrite Hidx. cbn [length]. rewrite length_app.
  destruct rest as [|r rest]; cbn [length].
  - destruct (Nat.ltb_spec (S (length pre) + 1) (S (length pre + 1))); [lia|].
    now rewrite name_snoc.
  - destruct (Nat.ltb_spec (S (length pre) + 1)
                (S (length pre + S (S (length rest))))); [|lia].
    f_equal. rewrite Nat.add_1_r. cbn [skipn].
    change (restore_from_name self :: r :: rest)
      with ([restore_from_name self] ++ r :: rest).
    rewrite app_assoc.
    rewrite (drop_app_length' (pre ++ [restore_from_name self])); [reflexivity|].
    rewrite length_app. cbn [length]. lia.
Qed.

(** X19. The flat fallback is never used for a file that [main] admits.
    An admitted path outside the source root has the source root's folder
    name among its segments, so when tier 2 finds no candidate the
    destination is rebuilt from what follows the first such segment (or
    from the folder name itself when nothing follows). *)
Theorem admitted_file_is_never_dropped_flat (fs : node)
    (from_root to_root src_path : path) :
  admitted from_root src_path = true ->
  relative_to src_path from_root = None ->
  name from_root <> "" ->
  name from_root <> "/" ->
  fst (_index_candidates fs (DestPlacer_init from_root to_root)
         (name src_path)) = [] ->
  exists pre rest,
    src_path = pre ++ name from_root :: rest /\
    (name from_root ∉ pre) /\
    fst (choose_dest fs (DestPlacer_init from_root to_root) src_path) =
    join to_root (match rest with
                  | [] => [name from_root]
                  | _ :: _ => rest
                  end).
Proof.
  intros Hadm Hrel Hne Hslash Hnone.
  apply admitted_cases in Hadm as [Hpre|[Hin|Hemp]]; [ | | contradiction].
  { apply relative_to_None in Hrel. contradiction. }
  apply list_elem_of_split_l in Hin as (pre & rest & -> & Hpre).
  exists pre, rest. split; [reflexivity|]. split; [exact Hpre|].
  rewrite (choose_dest_falls_to_tier34 fs (DestPlacer_init from_root to_root)
             _ Hrel Hnone).
  destruct (_index_candidates_fields fs (DestPlacer_init from_root to_root)
              (name (pre ++ name from_root :: rest))) as (Hto & _ & Hnm).
  cbn [DestPlacer_init restore_to restore_from_name] in Hto, Hnm.
  pose proof (tier34_anchor
                (snd (_index_candidates fs (DestPlacer_init from_root to_root)
                        (name (pre ++ name from_root :: rest))))
                pre rest) as Ht.
  rewrite Hnm, Hto in Ht. rewrite (Ht Hpre Hslash).
  destruct rest; [|reflexivity].
  unfold of_str. apply String.eqb_neq in Hne. now rewrite Hne.
Qed.

Lemma admitted_file_is_never_dropped_flat_witness :
  admitted ["old"; "proj"] ["bak"; "proj"; "lib"; "zz.py"] = true /\
  exists pre rest,
    ["bak"; "proj"; "lib"; "zz.py"] = pre ++ name ["old"; "proj"] :: rest /\
    fst (choose_dest Reorganized.fs (DestPlacer_init ["old"; "proj"] ["new"; "proj"])
           ["bak"; "proj"; "lib"; "zz.py"]) =
    join ["new"; "proj"] (match rest with
                          | [] => [name ["old"; "proj"]]
                          | _ :: _ => rest
                          end).
Proof.
  assert (H1 : admitted ["old"; "proj"] ["bak"; "proj"; "lib"; "zz.py"] = true)
    by (vm_compute; reflexivity).
  assert (H2 : relative_to ["bak"; "proj"; "lib"; "zz.py"] ["old"; "proj"] = None)
    by reflexivity.
  assert (H3 : name ["old"; "proj"] <> "") by discriminate.
  assert (H4 : name ["old"; "proj"] <> "/") by discriminate.
  assert (H5 : fst (_index_candidates Reorganized.fs
                      (DestPlacer_init ["old"; "proj"] ["new"; "proj"])
                      (name ["bak"; "proj"; "lib"; "zz.py"])) = [])
    by (vm_compute; reflexivity).
  split; [exact H1|].
  destruct (admitted_file_is_never_dropped_flat Reorganized.fs
              ["old"; "proj"] ["new"; "proj"] ["bak"; "proj"; "lib"; "zz.py"]
              H1 H2 H3 H4 H5) as (pre & rest & Hsplit & _ & Hdest).
  exists pre, rest. split; assumption.
Defined.

(** ** Files without a snapshot in the window *)

Lemma select_none (entries : list entry) (after_ms before_ms : option Z) :
  Forall (fun e => timestamp e <> TsNull /\
                   qualifies after_ms before_ms e = false) entries ->
  select entries after_ms before_ms = OK None.
Proof.
  intros H.
  destruct (select_total entries after_ms before_ms) as [r Hr].
  { eapply Forall_impl; [exact H|]. now intros e [He _]. }
  rewrite Hr. pose proof (select_correct _ _ _ _ Hr) as Hc.
  destruct r as [e|]; [|reflexivity].
  destruct Hc as (Hin & Hq & _). rewrite Forall_forall in H.
  destruct (H e Hin) as [_ Hnq]. congruence.
Qed.

Lemma restore_loop_no_match (dry_run : bool) (after_ms before_ms : option Z)
    (files : list tracked_file) (st : run_state) :
  Forall (fun t => Forall (fun e => timestamp e <> TsNull /\
                                    qualifies after_ms before_ms e = false)
                          (history_entries t)) files ->
  restore_loop dry_run after_ms before_ms files st = OK st.
Proof.
  induction 1 as [|t files Ht _ IH]; cbn [restore_loop]; [reflexivity|].
  assert (H1 : restore_one dry_run after_ms before_ms st t = OK st).
  { unfold restore_one.
    destruct (admitted (restore_from (placer st)) (resource_path t)); [|reflexivity].
    cbn [negb]. now rewrite (select_none _ _ _ Ht). }
  rewrite H1. cbn [bind]. exact IH.
Qed.

(** X20. When no tracked file has an entry with a timestamp inside the
    window (and no timestamp is [null]), the run reports nothing and
    counts nothing, in either mode, and its only effect on the file
    system is the creation of the destination root. With at least one
    loaded history it prints no warning either; with none at all it
    prints the one line
    ["[warn] no entries.json files found under history root."] and
    exits. *)
Theorem no_match_no_action (dry_run : bool) (restore_from restore_to : path)
    (after_ms before_ms : option Z) (fs fs0 : node) (files : list tracked_file) :
  mkdir_p restore_to fs = OK fs0 ->
  Forall (fun t => Forall (fun e => timestamp e <> TsNull /\
                                    qualifies after_ms before_ms e = false)
                          (history_entries t)) files ->
  main_restore dry_run restore_from restore_to after_ms before_ms fs files =
  OK {| fs_now := fs0; placer := DestPlacer_init restore_from restore_to;
        stdout := [];
        stderr := match files with [] => [NoEntriesFound] | _ :: _ => [] end;
        restored_count := 0 |}.
Proof.
  intros Hmk Hfiles. unfold main_restore. rewrite Hmk. cbn [bind].
  destruct files as [|t files]; [reflexivity|].
  now apply restore_loop_no_match.
Qed.

Lemma no_match_no_action_witness :
  main_restore false ["proj"] ["proj2"] None (Some 100%Z) DryRun.fs
    [DryRun.first; DryRun.second] =
  OK {| fs_now := DryRun.fs; placer := DestPlacer_init ["proj"] ["proj2"];
        stdout := []; stderr := []; restored_count := 0 |} /\
  main_restore false ["proj"] ["proj2"] None (Some 100%Z) DryRun.fs [] =
  OK {| fs_now := DryRun.fs; placer := DestPlacer_init ["proj"] ["proj2"];
        stdout := []; stderr := [NoEntriesFound]; restored_count := 0 |}.
Proof.
  split.
  - apply (no_match_no_action false ["proj"] ["proj2"] None (Some 100%Z)
             DryRun.fs DryRun.fs [DryRun.first; DryRun.second]);
      [reflexivity|].
    repeat (constructor; [repeat constructor; discriminate|]). constructor.
  - apply (no_match_no_action false ["proj"] ["proj2"] None (Some 100%Z)
             DryRun.fs DryRun.fs []); [reflexivity | constructor].
Defined.

(** ** dequote_and_expand *)

Lemma endswith_snoc (c : Ascii.ascii) (s : string) :
  endswith c (s +:+ String c "") = true.
Proof.
  induction s as [|a s IH].
  - apply Ascii.eqb_refl.
  - change (String a s +:+ String c "") with (String a (s +:+ String c "")).
    destruct (s +:+ String c "") eqn:E; [destruct s; discriminate | exact IH].
Qed.

Lemma append_cons (a : Ascii.ascii) (s t : string) :
  String a s +:+ t = String a (s +:+ t).
Proof. reflexivity. Qed.

Lemma length_snoc (c : Ascii.ascii) (s : string) :
  String.length (s +:+ String c "") = S (String.length s).
Proof.
  induction s as [|a s IH]; [reflexivity|].
  rewrite append_cons. cbn [String.length]. now rewrite IH.
Qed.

Lemma substring_front (s t : string) :
  String.substring 0 (String.length s) (s +:+ t) = s.
Proof.
  induction s as [|a s IH].
  - change ("" +:+ t) with t. cbn [String.length]. now destruct t.
  - rewrite append_cons. cbn [String.length String.substring]. now rewrite IH.
Qed.

Lemma slice_quoted (c : Ascii.ascii) (s : string) :
  slice_1_m1 (String c (s +:+ String c "")) = s.
Proof.
  unfold slice_1_m1. cbn [String.length]. rewrite length_snoc.
  cbn [Nat.sub String.substring]. rewrite Nat.sub_0_r. apply substring_front.
Qed.

(** X21. [dequote_and_expand] removes exactly one pair of matching
    quotes, double or single, whatever lies between them, before the
    expansions are applied; a string that is a single quote character
    becomes the empty string; a string that does not both start and end
    with the same quote character is expanded as it is. *)
Theorem dequote_strips_one_pair (expanduser expandvars : string -> string)
    (T : Type) (mkpath : string -> T) :
  (forall q s, q = double_quote \/ q = single_quote ->
     dequote_and_expand expanduser expandvars T mkpath
       (String q (s +:+ String q "")) =
     mkpath (expandvars (expanduser s))) /\
  (forall q, q = double_quote \/ q = single_quote ->
     dequote_and_expand expanduser expandvars T mkpath (String q "") =
     mkpath (expandvars (expanduser ""))) /\
  (forall p,
     startswith double_quote p && endswith double_quote p = false ->
     startswith single_quote p && endswith single_quote p = false ->
     dequote_and_expand expanduser expandvars T mkpath p =
     mkpath (expandvars (expanduser p))).
Proof.
  split; [|split].
  - intros q s Hq. unfold dequote_and_expand. cbv zeta.
    assert (Hcond :
      (startswith double_quote (String q (s +:+ String q ""))
       && endswith double_quote (String q (s +:+ String q "")))
      || (startswith single_quote (String q (s +:+ String q ""))
          && endswith single_quote (String q (s +:+ String q ""))) = true).
    { pose proof (endswith_snoc q (String q s)) as He.
      rewrite append_cons in He.
      destruct Hq as [-> | ->]; cbn [startswith]; rewrite Ascii.eqb_refl, He;
        [reflexivity | apply orb_true_r]. }
    rewrite Hcond. now rewrite slice_quoted.
  - intros q Hq. unfold dequote_and_expand. cbv zeta.
    destruct Hq as [-> | ->]; reflexivity.
  - intros p Hd Hs. unfold dequote_and_expand. cbv zeta.
    now rewrite Hd, Hs.
Qed.

(** ** Start-up of [main] *)

Lemma bound_ms_given (to_ms : string -> option Z) (arg : option string)
    (r : option Z) :
  bound_ms to_ms arg = Some r -> given arg = true -> exists ms, r = Some ms.
Proof.
  unfold bound_ms, given. destruct arg as [s|]; [|discriminate].
  destruct (String.eqb s ""); [discriminate|].
  destruct (to_ms s) as [ms|]; [|discriminate].
  intros [= <-] _. now exists ms.
Qed.

(** X22. When the start-up of [main] goes on to the restore, the history
    root exists, the destination root has been created, at least one
    bound is set, a lower bound is strictly below an upper bound, and so
    the window is not empty: some timestamp lies inside it. *)
Theorem accepted_window_is_valid (to_ms : string -> option Z)
    (history_root restore_to : path) (before after : option string)
    (fs fs' : node) (before_ms after_ms : option Z) :
  main_startup to_ms history_root restore_to before after fs
    = Proceed fs' before_ms after_ms ->
  path_exists fs history_root = true /\
  mkdir_p restore_to fs = OK fs' /\
  (before_ms <> None \/ after_ms <> None) /\
  (forall a b, after_ms = Some a -> before_ms = Some b -> (a < b)%Z) /\
  exists ts, in_window after_ms before_ms ts = true.
Proof.
  unfold main_startup.
  destruct (path_exists fs history_root); cbn [negb]; [|discriminate].
  destruct (mkdir_p restore_to fs) as [fs0|]; [|discriminate].
  destruct (negb (given before) && negb (given after)) eqn:Hgiven; [discriminate|].
  destruct (bound_ms to_ms before) as [b|] eqn:Hb; [|discriminate].
  destruct (bound_ms to_ms after) as [a|] eqn:Ha; [|discriminate].
  assert (Hsome : b <> None \/ a <> None).
  { apply andb_false_iff in Hgiven as [Hg|Hg]; apply negb_false_iff in Hg.
    - left. destruct (bound_ms_given _ _ _ Hb Hg) as [ms ->]. discriminate.
    - right. destruct (bound_ms_given _ _ _ Ha Hg) as [ms ->]. discriminate. }
  destruct b as [b|], a as [a|].
  - destruct (Z.leb_spec b a); [discriminate|]. intros [= <- <- <-].
    repeat split; auto.
    + intros a' b' [= <-] [= <-]. lia.
    + exists a. unfold in_window. apply andb_true_iff.
      split; [apply Z.leb_le | apply Z.ltb_lt]; lia.
  - intros [= <- <- <-]. repeat split; auto; [discriminate|].
    exists (b - 1)%Z. unfold in_window. cbn. apply Z.ltb_lt. lia.
  - intros [= <- <- <-]. repeat split; auto; [discriminate|].
    exists a. unfold in_window. apply andb_true_iff.
    split; [apply Z.leb_le; lia | reflexivity].
  - exfalso. destruct Hsome; congruence.
Qed.

Lemma accepted_window_is_valid_witness :
  main_startup (fun _ => Some 150%Z) ["hist"] ["proj2"] None (Some "2025-09-20")
    DryRun.fs = Proceed DryRun.fs None (Some 150%Z) /\
  exists ts, in_window (Some 150%Z) None ts = true.
Proof.
  assert (H : main_startup (fun _ => Some 150%Z) ["hist"] ["proj2"] None
                (Some "2025-09-20") DryRun.fs
              = Proceed DryRun.fs None (Some 150%Z)) by reflexivity.
  split; [exact H|].
  exact (proj2 (proj2 (proj2 (proj2 (accepted_window_is_valid _ _ _ _ _ _ _ _ _ H))))).
Defined.

(** X23. The destination root is created before the bounds are looked
    at. When the history root exists and the start-up ends in
    [sys.exit(1)] (no bound given, or the lower bound not below the upper
    one), the destination root has already been created and is left
    behind. *)
Theorem rejected_bounds_leave_root_created (to_ms : string -> option Z)
    (history_root restore_to : path) (before after : option string)
    (fs fs' : node) (message : string) :
  main_startup to_ms history_root restore_to before after fs = SysExit fs' message ->
  path_exists fs history_root = true ->
  mkdir_p restore_to fs = OK fs' /\
  exists ch, node_at fs' restore_to = Some (Dir ch).
Proof.
  unfold main_startup. intros H Hex. rewrite Hex in H. cbn [negb] in H.
  destruct (mkdir_p restore_to fs) as [fs0|] eqn:Hmk; [|discriminate].
  assert (Hfs : fs0 = fs').
  { destruct (negb (given before) && negb (given after)); [now injection H|].
    destruct (bound_ms to_ms before) as [[b|]|]; try discriminate;
      destruct (bound_ms to_ms after) as [[a|]|]; try discriminate.
    destruct (b <=? a)%Z; [now injection H | discriminate]. }
  subst fs0. split; [reflexivity|]. now apply (mkdir_p_is_dir restore_to fs).
Qed.

Lemma rejected_bounds_leave_root_created_witness :
  main_startup (fun _ => Some 150%Z) [] ["proj2"] None None (Dir [])
    = SysExit (Dir [("proj2", Dir [])])
        "[error] Provide at least one bound: --before, --after, or both." /\
  mkdir_p ["proj2"] (Dir []) = OK (Dir [("proj2", Dir [])]).
Proof.
  assert (H : main_startup (fun _ => Some 150%Z) [] ["proj2"] None None (Dir [])
              = SysExit (Dir [("proj2", Dir [])])
                  "[error] Provide at least one bound: --before, --after, or both.")
    by reflexivity.
  split; [exact H|].
  exact (proj1 (rejected_bounds_leave_root_created _ _ _ _ _ _ _ _ H eq_refl)).
Defined.
